(** * GSdx single-producer/single-consumer ring buffer

    A shallow embedding of [plugins/GSdx/boost_spsc_queue.hpp]
    (class [ringbuffer_base<T, max_size>]) and the properties its
    specification claims about it.

    The member functions are functions on the data members, written in a
    small state-and-trace monad that also records what they do to
    objects of the payload type [T].  They are studied twice: run from
    start to end, one call after the other, and statement by statement,
    with the statements of the producer's and of the consumer's calls
    interleaved in any order.  In both, a load sees the last store: the
    [memory_order] arguments of the atomic loads and stores are kept in
    the text of the member functions but have no effect. *)

From stdpp Require Import base numbers list.

Local Open Scope Z_scope.

(** ** [size_t] *)

(** [size_t] is an unsigned 64-bit integer: a [Z] in [0, 2^64) whose
    additions and subtractions wrap around. *)
Module size_t.
Definition bits : Z := 64.
Definition modulus : Z := 2 ^ bits.
Definition wrap (z : Z) : Z := z mod modulus.
Definition add (a b : Z) : Z := wrap (a + b).
Definition sub (a b : Z) : Z := wrap (a - b).
(** Unsigned [%]; the divisor must not be zero. *)
Definition rem (a b : Z) : Z := a mod b.
Definition in_range (z : Z) : Prop := 0 <= z < modulus.
End size_t.

(** ** The object and its effects *)

(** The order arguments of [atomic<size_t>::load] and [store]. *)
Inductive memory_order : Set :=
  | memory_order_relaxed
  | memory_order_acquire
  | memory_order_release.

(** What a member function does to payload objects and to the allocator.
    Slots are named by their index into [buffer]. *)
Inductive event : Set :=
  | AlignedMalloc (slots : Z)   (* _aligned_malloc(sizeof(T)*slots, 32) *)
  | AlignedFree                 (* _aligned_free(buffer) *)
  | DefaultCtor                 (* T out; *)
  | CopyCtor (slot : Z)         (* new (buffer + slot) T(t) *)
  | CopyAssign (slot : Z)       (* ret = buffer[slot] *)
  | Call (slot : Z)             (* f(buffer[slot]) *)
  | Dtor (slot : Z)             (* buffer[slot].~T() *)
  | DtorLocal.                  (* out.~T() when the scope ends *)

Global Instance event_eq_dec : EqDecision event.
Proof. solve_decision. Defined.

(** The data members.  [buffer] is the raw block of slots: a slot is
    [None] while it holds no object and [Some t] while it holds the live
    object [t].  The padding members carry no data. *)
Record ringbuffer_base (T : Type) : Type := mk_ringbuffer_base {
  write_index_ : Z;
  read_index_ : Z;
  pending_pop_read_index : Z;
  buffer : list (option T)
}.
Global Arguments mk_ringbuffer_base {T} _ _ _ _.
Global Arguments write_index_ {T} _.
Global Arguments read_index_ {T} _.
Global Arguments pending_pop_read_index {T} _.
Global Arguments buffer {T} _.

(** The object a slot holds, if any. *)
Definition slot_at {T} (b : list (option T)) (i : Z) : option T :=
  mjoin (b !! Z.to_nat i).

(** ** The monad of member functions *)

(** A member function maps the object to a result, the object afterwards
    and the events it caused, in order. *)
Definition M (T A : Type) : Type :=
  ringbuffer_base T -> A * ringbuffer_base T * list event.

Global Instance M_ret {T} : MRet (M T) := fun A a q => (a, q, []).
Global Instance M_bind {T} : MBind (M T) := fun A B f m q =>
  let '(a, q1, e1) := m q in
  let '(b, q2, e2) := f a q1 in
  (b, q2, e1 ++ e2).

Definition result {T A} (r : A * ringbuffer_base T * list event) : A := r.1.1.
Definition after {T A} (r : A * ringbuffer_base T * list event) : ringbuffer_base T := r.1.2.
Definition events {T A} (r : A * ringbuffer_base T * list event) : list event := r.2.

Section primitives.
Context {T : Type}.

Definition load_write_index_ (_ : memory_order) : M T Z :=
  fun q => (write_index_ q, q, []).
Definition load_read_index_ (_ : memory_order) : M T Z :=
  fun q => (read_index_ q, q, []).
Definition store_write_index_ (v : Z) (_ : memory_order) : M T unit :=
  fun q => (tt, mk_ringbuffer_base v (read_index_ q) (pending_pop_read_index q) (buffer q), []).
Definition store_read_index_ (v : Z) (_ : memory_order) : M T unit :=
  fun q => (tt, mk_ringbuffer_base (write_index_ q) v (pending_pop_read_index q) (buffer q), []).
Definition get_pending_pop_read_index : M T Z :=
  fun q => (pending_pop_read_index q, q, []).
Definition set_pending_pop_read_index (v : Z) : M T unit :=
  fun q => (tt, mk_ringbuffer_base (write_index_ q) (read_index_ q) v (buffer q), []).
Definition set_buffer (b : list (option T)) : M T unit :=
  fun q => (tt, mk_ringbuffer_base (write_index_ q) (read_index_ q) (pending_pop_read_index q) b, []).
Definition emit (e : event) : M T unit :=
  fun q => (tt, q, [e]).

(** [new (buffer + slot) T(t)]: copy-constructs [t] into the slot,
    whatever the slot held. *)
Definition placement_new (slot : Z) (t : T) : M T unit :=
  fun q => (tt,
            mk_ringbuffer_base (write_index_ q) (read_index_ q) (pending_pop_read_index q)
              (<[Z.to_nat slot := Some t]> (buffer q)),
            [CopyCtor slot]).

(** [ret = buffer[slot]]: the new value of [ret].  Reading a slot that
    holds no object is undefined in C++; here it leaves [ret] as it
    was. *)
Definition copy_assign (ret : T) (slot : Z) : M T T :=
  fun q => (default ret (slot_at (buffer q) slot), q, [CopyAssign slot]).

(** [f(buffer[slot])]: the state of the functor afterwards.  As for
    [copy_assign], a slot that holds no object leaves it as it was. *)
Definition call_functor {F : Type} (f : T -> F -> F) (fs : F) (slot : Z) : M T F :=
  fun q => (from_option (fun t => f t fs) fs (slot_at (buffer q) slot), q, [Call slot]).

(** [buffer[slot].~T()]: ends the life of the object in the slot.  The
    code does not look at what the slot holds. *)
Definition destroy (slot : Z) : M T unit :=
  fun q => (tt,
            mk_ringbuffer_base (write_index_ q) (read_index_ q) (pending_pop_read_index q)
              (<[Z.to_nat slot := None]> (buffer q)),
            [Dtor slot]).
End primitives.

(** ** The member functions *)

Section ringbuffer_base.
Context {T : Type}.
(** The template parameter [size_t max_size]. *)
Variable max_size : Z.

(** [ringbuffer_base(void)]: both indices and the pending index at
    zero, and a block of [max_size] slots none of which holds an
    object.  No constructor of [T] runs. *)
Definition ringbuffer_base_ctor : ringbuffer_base T * list event :=
  (mk_ringbuffer_base 0 0 0 (replicate (Z.to_nat max_size) None),
   [AlignedMalloc max_size]).

Definition next_index (arg : Z) : Z :=
  let ret := size_t.add arg 1 in
  let ret := size_t.rem ret max_size in
  ret.

(** The private [empty(size_t write_index, size_t read_index)]. *)
Definition empty2 (write_index read_index : Z) : bool :=
  write_index =? read_index.

Definition push (t : T) : M T bool :=
  write_index ← load_write_index_ memory_order_relaxed;
  let next := next_index write_index in
  read_index ← load_read_index_ memory_order_acquire;
  if next =? read_index then mret false
  else
    placement_new write_index t;;
    store_write_index_ next memory_order_release;;
    mret true.

(** [bool pop(T & ret)]: the result and the value of [ret] afterwards. *)
Definition pop (ret : T) : M T (bool * T) :=
  write_index ← load_write_index_ memory_order_acquire;
  read_index ← load_read_index_ memory_order_relaxed;
  if empty2 write_index read_index then mret (false, ret)
  else
    ret' ← copy_assign ret read_index;
    destroy read_index;;
    let next := next_index read_index in
    store_read_index_ next memory_order_release;;
    mret (true, ret').

(** [T& front()]: the reference it returns is the index of the slot. *)
Definition front : M T Z :=
  read_index ← load_read_index_ memory_order_relaxed;
  set_pending_pop_read_index read_index;;
  get_pending_pop_read_index.

(** [void pop()], the overload without argument. *)
Definition pop0 : M T unit :=
  pending ← get_pending_pop_read_index;
  destroy pending;;
  let next := next_index pending in
  store_read_index_ next memory_order_release.

(** [bool consume_one(Functor & f)]: the functor is a function on its
    own state [F]; the result and the state of the functor afterwards. *)
Definition consume_one {F : Type} (f : T -> F -> F) (fs : F) : M T (bool * F) :=
  write_index ← load_write_index_ memory_order_acquire;
  read_index ← load_read_index_ memory_order_relaxed;
  if empty2 write_index read_index then mret (false, fs)
  else
    fs' ← call_functor f fs read_index;
    destroy read_index;;
    let next := next_index read_index in
    store_read_index_ next memory_order_release;;
    mret (true, fs').

Definition reset : M T unit :=
  store_write_index_ 0 memory_order_relaxed;;
  store_read_index_ 0 memory_order_release.

Definition empty : M T bool :=
  write_index ← load_write_index_ memory_order_relaxed;
  read_index ← load_read_index_ memory_order_relaxed;
  mret (empty2 write_index read_index).

(** [is_lock_free()]: [lock_free] is what [atomic<size_t>::is_lock_free]
    answers on the platform. *)
Definition is_lock_free (lock_free : bool) : M T bool :=
  mret (lock_free && lock_free).

Definition size : M T Z :=
  write_index ← load_write_index_ memory_order_relaxed;
  read_index ← load_read_index_ memory_order_relaxed;
  if read_index >? write_index
  then mret (size_t.sub (size_t.add write_index max_size) read_index)
  else mret (size_t.sub write_index read_index).

(** [while (pop(out)) {};].  The loop is bounded by [fuel]; [None] when
    the fuel runs out before the ring reports empty. *)
Fixpoint drain (fuel : nat) (out : T) : M T (option T) :=
  match fuel with
  | O => mret None
  | S fuel' =>
      '(more, out') ← pop out;
      if more : bool then drain fuel' out' else mret (Some out')
  end.

(** [~ringbuffer_base(void)].  [T_default] is what [T]'s default
    constructor makes: the scratch object [out] is built with it. *)
Definition ringbuffer_base_dtor (T_default : T) (fuel : nat) : M T (option unit) :=
  emit DefaultCtor;;
  let out := T_default in
  r ← drain fuel out;
  match r with
  | None => mret None
  | Some _ =>
      emit AlignedFree;;
      set_buffer [];;
      emit DtorLocal;;
      mret (Some tt)
  end.
End ringbuffer_base.

(** ** The elements in the ring, and sequences of calls *)

Section contents.
Context {T : Type}.
Variable max_size : Z.

(** The objects in the slots from [read_index_] on, as many as [size()]
    reports, oldest first. *)
Definition contents (q : ringbuffer_base T) : list T :=
  omap (fun k => slot_at (buffer q) ((read_index_ q + k) mod max_size))
       (seqZ 0 (result (size max_size q))).

(** The number of slots of the block that hold an object. *)
Definition occupied_slots (q : ringbuffer_base T) : nat :=
  length (filter is_Some (buffer q)).

(** One call by the producer or by the consumer.  [CallPop ret] is
    [pop(ret)] with the value the caller's variable has before the
    call; [CallConsumeOne] passes a functor that records its
    argument. *)
Inductive call : Type :=
  | CallPush (t : T)
  | CallPop (ret : T)
  | CallConsumeOne
  | CallEmpty
  | CallSize.

(** What the two callers have seen: the values whose [push] returned
    [true], and the values the successful [pop] and [consume_one] calls
    handed out, both in call order. *)
Record history : Type := mk_history {
  pushed : list T;
  popped : list T
}.

Definition record_value (t : T) (log : list T) : list T := log ++ [t].

Definition step (c : call) (s : ringbuffer_base T * history)
  : ringbuffer_base T * history :=
  let '(q, h) := s in
  match c with
  | CallPush t =>
      let r := push max_size t q in
      (after r,
       if result r then mk_history (pushed h ++ [t]) (popped h) else h)
  | CallPop ret =>
      let r := pop max_size ret q in
      (after r,
       if (result r).1 then mk_history (pushed h) (popped h ++ [(result r).2]) else h)
  | CallConsumeOne =>
      let r := consume_one max_size record_value (popped h) q in
      (after r, mk_history (pushed h) (result r).2)
  | CallEmpty => (after (empty q), h)
  | CallSize => (after (size max_size q), h)
  end.

Definition run (cs : list call) (s : ringbuffer_base T * history)
  : ringbuffer_base T * history :=
  fold_left (fun s c => step c s) cs s.

(** A fresh ring and two callers that have seen nothing yet. *)
Definition start : ringbuffer_base T * history :=
  ((ringbuffer_base_ctor max_size).1, mk_history [] []).

(** [push] called on each value in turn; the results in call order. *)
Fixpoint push_each (ts : list T) : M T (list bool) :=
  match ts with
  | [] => mret []
  | t :: ts' =>
      ok ← push max_size t;
      oks ← push_each ts';
      mret (ok :: oks)
  end.

(** [pop(ret)] called [n] times on the same variable; the result and
    the value of the variable after each call. *)
Fixpoint pop_times (n : nat) (ret : T) : M T (list (bool * T)) :=
  match n with
  | O => mret []
  | S n' =>
      r ← pop max_size ret;
      rs ← pop_times n' r.2;
      mret (r :: rs)
  end.
End contents.

(** ** The queue a ring represents *)

Section representation.
Context {T : Type}.
Variable max_size : Z.
Implicit Types (q : ringbuffer_base T) (l : list T).

(** [holds q l]: the ring [q] holds the queue [l], oldest element
    first.  The element number [k] of [l] is the object in the slot [k]
    places after [read_index_], cyclically; every other slot holds no
    object. *)
Record holds q l : Prop := mk_holds {
  holds_read : 0 <= read_index_ q < max_size;
  holds_length : Z.of_nat (length l) < max_size;
  holds_write :
    write_index_ q = (read_index_ q + Z.of_nat (length l)) mod max_size;
  holds_buffer : length (buffer q) = Z.to_nat max_size;
  holds_slots : forall i, 0 <= i < max_size ->
    slot_at (buffer q) i = l !! Z.to_nat ((i - read_index_ q) mod max_size)
}.

(** Index [i] lies in the half-open cyclic range from [read] up to, and
    not including, [write]. *)
Definition in_ring (read write i : Z) : bool :=
  if read <=? write
  then (read <=? i) && (i <? write)
  else (read <=? i) || (i <? write).

(** The invariant of the data model: both indices are indices of the
    block, and a slot holds an object exactly when its index lies in the
    cyclic range from [read_index_] to [write_index_]. *)
Definition ring_inv q : Prop :=
  0 <= read_index_ q < max_size
  /\ 0 <= write_index_ q < max_size
  /\ length (buffer q) = Z.to_nat max_size
  /\ forall i, 0 <= i < max_size ->
       (is_Some (slot_at (buffer q) i)
        <-> in_ring (read_index_ q) (write_index_ q) i = true).
End representation.

(** ** The two threads, statement by statement *)

(** The calls above run a member function from start to end.  Here the
    producer and the consumer advance one statement of [push] or of
    [pop] / [consume_one] at a time, in any order, each load and store
    acting on the one shared object at once. *)

Section threads.
Context {T : Type}.
Variable max_size : Z.

(** Where the producer stands in [push(t)], with its locals. *)
Inductive producer : Type :=
  | PIdle
  | PLoaded (t : T) (write_index : Z)
  | PRoom (t : T) (write_index next : Z)
  | PConstructed (t : T) (write_index next : Z).

(** The member function the consumer calls. *)
Inductive consumer_call : Type :=
  | PopCall (ret : T)
  | ConsumeOneCall.

(** Where the consumer stands, with its locals; [got] is what the call
    hands out. *)
Inductive consumer : Type :=
  | CIdle
  | CLoaded (c : consumer_call) (write_index : Z)
  | CNonEmpty (c : consumer_call) (read_index : Z)
  | CCopied (got : option T) (read_index : Z)
  | CDestroyed (got : option T) (read_index : Z).

Record config : Type := mk_config {
  shared : ringbuffer_base T;
  prod : producer;
  cons : consumer;
  seen : @history T
}.

(** The next statement of the producer; an idle producer calls
    [push(t)]. *)
Definition producer_step (t : T) (cfg : config) : config :=
  let q := shared cfg in
  match prod cfg with
  | PIdle =>
      let write_index := result (load_write_index_ memory_order_relaxed q) in
      mk_config q (PLoaded t write_index) (cons cfg) (seen cfg)
  | PLoaded t' write_index =>
      let next := next_index max_size write_index in
      if next =? result (load_read_index_ memory_order_acquire q)
      then mk_config q PIdle (cons cfg) (seen cfg)
      else mk_config q (PRoom t' write_index next) (cons cfg) (seen cfg)
  | PRoom t' write_index next =>
      mk_config (after (placement_new write_index t' q))
        (PConstructed t' write_index next) (cons cfg) (seen cfg)
  | PConstructed t' write_index next =>
      mk_config (after (store_write_index_ next memory_order_release q))
        PIdle (cons cfg)
        (mk_history (pushed (seen cfg) ++ [t']) (popped (seen cfg)))
  end.

(** The next statement of the consumer; an idle consumer makes the call
    [c]. *)
Definition consumer_step (c : consumer_call) (cfg : config) : config :=
  let q := shared cfg in
  match cons cfg with
  | CIdle =>
      let write_index := result (load_write_index_ memory_order_acquire q) in
      mk_config q (prod cfg) (CLoaded c write_index) (seen cfg)
  | CLoaded c' write_index =>
      let read_index := result (load_read_index_ memory_order_relaxed q) in
      if empty2 write_index read_index
      then mk_config q (prod cfg) CIdle (seen cfg)
      else mk_config q (prod cfg) (CNonEmpty c' read_index) (seen cfg)
  | CNonEmpty c' read_index =>
      let got :=
        match c' with
        | PopCall ret => Some (result (copy_assign ret read_index q))
        | ConsumeOneCall => slot_at (buffer q) read_index
        end in
      mk_config q (prod cfg) (CCopied got read_index) (seen cfg)
  | CCopied got read_index =>
      mk_config (after (destroy read_index q)) (prod cfg)
        (CDestroyed got read_index) (seen cfg)
  | CDestroyed got read_index =>
      let next := next_index max_size read_index in
      mk_config (after (store_read_index_ next memory_order_release q))
        (prod cfg) CIdle
        (mk_history (pushed (seen cfg)) (popped (seen cfg) ++ option_list got))
  end.

(** Whose turn it is, and the call that thread makes if it is idle. *)
Inductive turn : Type :=
  | ProducerTurn (t : T)
  | ConsumerTurn (c : consumer_call).

Definition turn_step (cfg : config) (s : turn) : config :=
  match s with
  | ProducerTurn t => producer_step t cfg
  | ConsumerTurn c => consumer_step c cfg
  end.

Definition run_turns (ss : list turn) (cfg : config) : config :=
  fold_left turn_step ss cfg.

Definition start_config : config :=
  mk_config (ringbuffer_base_ctor max_size).1 PIdle CIdle (mk_history [] []).

(** The block as it would be without the statements in flight. *)
Definition with_buffer (q : ringbuffer_base T) (g : list (option T)) : ringbuffer_base T :=
  mk_ringbuffer_base (write_index_ q) (read_index_ q) (pending_pop_read_index q) g.

Definition consumer_in_flight (c : consumer) (g : list (option T)) : list (option T) :=
  match c with
  | CDestroyed _ read_index => <[Z.to_nat read_index := None]> g
  | _ => g
  end.

Definition producer_in_flight (p : producer) (g : list (option T)) : list (option T) :=
  match p with
  | PConstructed t write_index _ => <[Z.to_nat write_index := Some t]> g
  | _ => g
  end.

Definition producer_ok (p : producer) (q : ringbuffer_base T) (l : list T) : Prop :=
  match p with
  | PIdle => True
  | PLoaded _ write_index => write_index = write_index_ q
  | PRoom _ write_index next | PConstructed _ write_index next =>
      write_index = write_index_ q
      /\ next = next_index max_size write_index
      /\ Z.of_nat (length l) < max_size - 1
  end.

Definition consumer_ok (c : consumer) (q : ringbuffer_base T) (l : list T) : Prop :=
  match c with
  | CIdle => True
  | CLoaded _ write_index =>
      exists n : nat, (n <= length l)%nat
        /\ write_index = (read_index_ q + Z.of_nat n) mod max_size
  | CNonEmpty _ read_index => read_index = read_index_ q /\ l <> []
  | CCopied got read_index | CDestroyed got read_index =>
      read_index = read_index_ q /\ exists v l', l = v :: l' /\ got = Some v
  end.

(** What every configuration the two threads can reach satisfies: apart
    from the statements in flight, the shared ring holds the queue [l] of
    the values pushed and not yet handed out. *)
Record threads_inv (cfg : config) (g : list (option T)) (l : list T) : Prop :=
  mk_threads_inv {
    inv_holds : holds max_size (with_buffer (shared cfg) g) l;
    inv_buffer :
      buffer (shared cfg)
      = producer_in_flight (prod cfg) (consumer_in_flight (cons cfg) g);
    inv_seen : pushed (seen cfg) = popped (seen cfg) ++ l;
    inv_producer : producer_ok (prod cfg) (shared cfg) l;
    inv_consumer : consumer_ok (cons cfg) (shared cfg) l
  }.
End threads.

(** ** Reading the events *)

(** The slots whose object's destructor an event list runs, in order. *)
Definition destroyed (es : list event) : list Z :=
  omap (fun e => match e with Dtor slot => Some slot | _ => None end) es.

(** The events of one successful [pop(ret)] per given slot. *)
Definition drained (slots : list Z) : list event :=
  slots ≫= fun slot => [CopyAssign slot; Dtor slot].

(** Whether an event asks of [T] no more than copy-construction and
    destruction.  The default constructor and the copy-assignment
    operator are the two members of [T] beyond those that the class
    uses; the functor of [consume_one] and the allocator are not members
    of [T]. *)
Definition only_copies_and_destroys (e : event) : bool :=
  match e with
  | CopyCtor _ | Dtor _ | DtorLocal => true
  | DefaultCtor | CopyAssign _ => false
  | Call _ | AlignedMalloc _ | AlignedFree => true
  end.

Section indices.
Variable max_size : Z.

(** The [n] indices from [i] on, each the [next_index] of the one
    before. *)
Fixpoint indices_from (i : Z) (n : nat) : list Z :=
  match n with
  | O => []
  | S n' => i :: indices_from (next_index max_size i) n'
  end.
End indices.

(** ** The events of a sequence of calls *)

(** The slots an event list copy-constructs an object into, in order. *)
Definition constructed (es : list event) : list Z :=
  omap (fun e => match e with CopyCtor slot => Some slot | _ => None end) es.

Section lifetime.
Context {T : Type}.
Variable max_size : Z.

(** The events of one call of [step]. *)
Definition call_events (c : @call T) (s : ringbuffer_base T * history)
  : list event :=
  let '(q, h) := s in
  match c with
  | CallPush t => events (push max_size t q)
  | CallPop ret => events (pop max_size ret q)
  | CallConsumeOne => events (consume_one max_size record_value (popped h) q)
  | CallEmpty => events (empty q)
  | CallSize => events (size max_size q)
  end.

(** The events of the calls of [run], in order. *)
Fixpoint trace (cs : list (@call T)) (s : ringbuffer_base T * history)
  : list event :=
  match cs with
  | [] => []
  | c :: cs' => call_events c s ++ trace cs' (step max_size c s)
  end.

(** The whole life of a ring: constructed, called on, destroyed. *)
Definition lifetime (T_default : T) (fuel : nat) (cs : list (@call T))
  : list event :=
  (ringbuffer_base_ctor (T:=T) max_size).2
  ++ trace cs (start max_size)
  ++ events (ringbuffer_base_dtor max_size T_default fuel
               (run max_size cs (start max_size)).1).
End lifetime.

(** * Properties *)

(** ** [size_t] *)

Section size_t_facts.
Import size_t.

Lemma size_t_modulus_eq : modulus = 18446744073709551616.
Proof. reflexivity. Qed.

Lemma size_t_wrap_small z : in_range z -> wrap z = z.
Proof. unfold in_range, wrap. intros H. apply Z.mod_small. exact H. Qed.

Lemma size_t_wrap_in_range z : in_range (wrap z).
Proof. unfold in_range, wrap. apply Z.mod_pos_bound. reflexivity. Qed.
End size_t_facts.

(** ** [next_index] *)

Section next_index_facts.
Variable max_size : Z.
Hypothesis max_size_pos : 0 < max_size.
Hypothesis max_size_size_t : max_size < size_t.modulus.

Lemma next_index_spec arg :
  0 <= arg < max_size -> next_index max_size arg = (arg + 1) mod max_size.
Proof.
  intros H. unfold next_index, size_t.add, size_t.rem.
  rewrite size_t_wrap_small; [reflexivity|]. unfold size_t.in_range. lia.
Qed.
End next_index_facts.

(** C3: for a ring of [capacity] usable slots, that is [max_size =
  capacity + 1], the advance of every index in [0, capacity] is
  [(index + 1) mod (capacity + 1)]; the index [capacity] wraps to 0;
  nothing requires [capacity + 1] to be a power of two. *)
Theorem next_index_advance (capacity index : Z) :
0 <= capacity -> capacity + 1 < size_t.modulus ->
0 <= index <= capacity ->
next_index (capacity + 1) index = (index + 1) mod (capacity + 1)
/\ next_index (capacity + 1) capacity = 0.
Proof.
intros Hc Hm Hi. split.
- apply next_index_spec; lia.
- rewrite next_index_spec by lia. apply Z.mod_same. lia.
Qed.

Lemma next_index_advance_witness :
next_index (6 + 1) 6 = (6 + 1) mod (6 + 1) /\ next_index (6 + 1) 6 = 0.
Proof.
apply (next_index_advance 6 6); [lia | reflexivity | lia].
Defined.

(** ** The member functions as single transitions *)

(** Runs a member function on an object given field by field. *)
Ltac run_M :=
unfold mbind, mret, M_bind, M_ret,
  load_write_index_, load_read_index_, store_write_index_, store_read_index_,
  get_pending_pop_read_index, set_pending_pop_read_index, set_buffer, emit,
  placement_new, copy_assign, destroy;
cbn.

Section transitions.
Context {T : Type}.
Variable max_size : Z.
Implicit Types (q : ringbuffer_base T) (t : T).

Lemma push_eq t q :
  push max_size t q =
    if next_index max_size (write_index_ q) =? read_index_ q
    then (false, q, [])
    else (true,
          mk_ringbuffer_base (next_index max_size (write_index_ q)) (read_index_ q)
            (pending_pop_read_index q)
            (<[Z.to_nat (write_index_ q) := Some t]> (buffer q)),
          [CopyCtor (write_index_ q)]).
Proof.
  unfold push. destruct q as [w r p b]. run_M.
  destruct (next_index max_size w =? r); reflexivity.
Qed.

Lemma pop_eq t q :
  pop max_size t q =
    if write_index_ q =? read_index_ q
    then (false, t, q, [])
    else (true, default t (slot_at (buffer q) (read_index_ q)),
          mk_ringbuffer_base (write_index_ q) (next_index max_size (read_index_ q))
            (pending_pop_read_index q)
            (<[Z.to_nat (read_index_ q) := None]> (buffer q)),
          [CopyAssign (read_index_ q); Dtor (read_index_ q)]).
Proof.
  unfold pop, empty2. destruct q as [w r p b]. run_M.
  destruct (w =? r); reflexivity.
Qed.

Lemma consume_one_eq {F} (f : T -> F -> F) (fs : F) q :
  consume_one max_size f fs q =
    if write_index_ q =? read_index_ q
    then (false, fs, q, [])
    else (true, from_option (fun t => f t fs) fs (slot_at (buffer q) (read_index_ q)),
          mk_ringbuffer_base (write_index_ q) (next_index max_size (read_index_ q))
            (pending_pop_read_index q)
            (<[Z.to_nat (read_index_ q) := None]> (buffer q)),
          [Call (read_index_ q); Dtor (read_index_ q)]).
Proof.
  unfold consume_one, empty2. destruct q as [w r p b]. run_M.
  destruct (w =? r); reflexivity.
Qed.

Lemma front_eq q :
  front q =
    (read_index_ q,
     mk_ringbuffer_base (write_index_ q) (read_index_ q) (read_index_ q) (buffer q),
     []).
Proof. destruct q; reflexivity. Qed.

Lemma pop0_eq q :
  pop0 max_size q =
    (tt,
     mk_ringbuffer_base (write_index_ q)
       (next_index max_size (pending_pop_read_index q))
       (pending_pop_read_index q)
       (<[Z.to_nat (pending_pop_read_index q) := None]> (buffer q)),
     [Dtor (pending_pop_read_index q)]).
Proof. destruct q; reflexivity. Qed.

Lemma reset_eq q :
  reset q = (tt, mk_ringbuffer_base 0 0 (pending_pop_read_index q) (buffer q), []).
Proof. destruct q; reflexivity. Qed.

Lemma empty_eq q :
  empty q = (write_index_ q =? read_index_ q, q, []).
Proof. destruct q; reflexivity. Qed.

Lemma size_eq q :
  size max_size q =
    (if read_index_ q >? write_index_ q
     then size_t.sub (size_t.add (write_index_ q) max_size) (read_index_ q)
     else size_t.sub (write_index_ q) (read_index_ q),
     q, []).
Proof.
  unfold size. destruct q as [w r p b]. run_M.
  destruct (r >? w); reflexivity.
Qed.
End transitions.

(** ** Index arithmetic modulo [max_size] *)

Section cyclic.
Variable max_size : Z.
Hypothesis max_size_pos : 0 < max_size.
Hypothesis max_size_size_t : max_size < size_t.modulus.

Lemma mod_sub_cases a b :
  0 <= a < max_size -> 0 <= b < max_size ->
  (a - b) mod max_size = if b <=? a then a - b else a - b + max_size.
Proof.
  intros Ha Hb. destruct (Z.leb_spec b a).
  - apply Z.mod_small. lia.
  - rewrite <- (Z_mod_plus_full (a - b) 1 max_size).
    replace (a - b + 1 * max_size) with (a - b + max_size) by lia.
    apply Z.mod_small. lia.
Qed.

Lemma mod_add_cases a k :
  0 <= a < max_size -> 0 <= k <= max_size ->
  (a + k) mod max_size = if a + k <? max_size then a + k else a + k - max_size.
Proof.
  intros Ha Hk. destruct (Z.ltb_spec (a + k) max_size).
  - apply Z.mod_small. lia.
  - rewrite <- (Z_mod_plus_full (a + k) (-1) max_size).
    replace (a + k + -1 * max_size) with (a + k - max_size) by lia.
    apply Z.mod_small. lia.
Qed.

Lemma next_index_cases a :
  0 <= a < max_size ->
  next_index max_size a = if a + 1 <? max_size then a + 1 else 0.
Proof.
  intros Ha. rewrite next_index_spec by lia.
  rewrite mod_add_cases by lia.
  destruct (Z.ltb_spec (a + 1) max_size); lia.
Qed.

Lemma next_index_bound a :
  0 <= a < max_size -> 0 <= next_index max_size a < max_size.
Proof.
  intros Ha. rewrite next_index_cases by lia.
  destruct (Z.ltb_spec (a + 1) max_size); lia.
Qed.
End cyclic.

(** ** Slots *)

Section slots.
Context {T : Type}.
Implicit Types (b : list (option T)) (x : option T).

Lemma slot_at_insert_eq b i x :
  0 <= i -> (Z.to_nat i < length b)%nat ->
  slot_at (<[Z.to_nat i := x]> b) i = x.
Proof.
  intros Hi Hlen. unfold slot_at.
  rewrite list_lookup_insert_eq by exact Hlen. reflexivity.
Qed.

Lemma slot_at_insert_ne b i j x :
  0 <= i -> 0 <= j -> i <> j ->
  slot_at (<[Z.to_nat i := x]> b) j = slot_at b j.
Proof.
  intros Hi Hj Hne. unfold slot_at.
  rewrite list_lookup_insert_ne by lia. reflexivity.
Qed.

Lemma slot_at_replicate_None n i :
  slot_at (replicate n (@None T)) i = None.
Proof.
  unfold slot_at.
  destruct (replicate n None !! Z.to_nat i) as [x|] eqn:E; [|reflexivity].
  apply lookup_replicate in E. destruct E as [-> _]. reflexivity.
Qed.
End slots.

(** ** The queue a ring represents *)

Section representation_facts.
Context {T : Type}.
Variable max_size : Z.
Hypothesis max_size_pos : 0 < max_size.
Hypothesis max_size_size_t : max_size < size_t.modulus.
Implicit Types (q : ringbuffer_base T) (l : list T) (t : T).


Lemma holds_write_bound q l : holds max_size q l -> 0 <= write_index_ q < max_size.
Proof.
  intros H. rewrite (holds_write _ _ _ H). apply Z.mod_pos_bound. lia.
Qed.

Lemma holds_write_offset q l :
  holds max_size q l ->
  (write_index_ q - read_index_ q) mod max_size = Z.of_nat (length l).
Proof.
  intros H. pose proof (holds_read _ _ _ H). pose proof (holds_length _ _ _ H).
  pose proof (holds_write_bound _ _ H) as Hw.
  rewrite mod_sub_cases by lia.
  rewrite (holds_write _ _ _ H) in *.
  rewrite mod_add_cases in * by lia.
  destruct (Z.ltb_spec (read_index_ q + Z.of_nat (length l)) max_size);
    destruct (Z.leb_spec (read_index_ q) (read_index_ q + Z.of_nat (length l)));
    destruct (Z.leb_spec (read_index_ q) (read_index_ q + Z.of_nat (length l) - max_size));
    lia.
Qed.

Lemma holds_ctor : holds max_size (@ringbuffer_base_ctor T max_size).1 [].
Proof.
  split; cbn.
  - lia.
  - lia.
  - rewrite Z.add_0_r. symmetry. apply Z.mod_small. lia.
  - apply length_replicate.
  - intros i _. rewrite slot_at_replicate_None. symmetry. apply lookup_nil.
Qed.

(** The ring is empty exactly when it holds no element. *)
Lemma holds_empty_iff q l :
  holds max_size q l -> (write_index_ q =? read_index_ q) = true <-> l = [].
Proof.
  intros H. pose proof (holds_write_offset _ _ H) as Ho.
  pose proof (holds_read _ _ _ H). pose proof (holds_write_bound _ _ H).
  rewrite mod_sub_cases in Ho by lia.
  rewrite Z.eqb_eq. split.
  - intros E. rewrite E in Ho.
    destruct (Z.leb_spec (read_index_ q) (read_index_ q)); [|lia].
    destruct l; [reflexivity | cbn in Ho; lia].
  - intros ->. cbn in Ho.
    destruct (Z.leb_spec (read_index_ q) (write_index_ q)); lia.
Qed.

(** The ring is full exactly when it holds [max_size - 1] elements. *)
Lemma holds_full_iff q l :
  holds max_size q l ->
  (next_index max_size (write_index_ q) =? read_index_ q) = true
  <-> Z.of_nat (length l) = max_size - 1.
Proof.
  intros H. pose proof (holds_write_offset _ _ H) as Ho.
  pose proof (holds_read _ _ _ H). pose proof (holds_write_bound _ _ H).
  pose proof (holds_length _ _ _ H).
  rewrite mod_sub_cases in Ho by lia.
  rewrite next_index_cases by lia.
  rewrite Z.eqb_eq.
  destruct (Z.ltb_spec (write_index_ q + 1) max_size);
    destruct (Z.leb_spec (read_index_ q) (write_index_ q)); lia.
Qed.

Lemma holds_push q l t :
  holds max_size q l -> Z.of_nat (length l) < max_size - 1 ->
  push max_size t q =
    (true,
     mk_ringbuffer_base (next_index max_size (write_index_ q)) (read_index_ q)
       (pending_pop_read_index q)
       (<[Z.to_nat (write_index_ q) := Some t]> (buffer q)),
     [CopyCtor (write_index_ q)])
  /\ holds max_size (after (push max_size t q)) (l ++ [t]).
Proof.
  intros H Hn.
  pose proof (holds_read _ _ _ H) as Hr. pose proof (holds_write_bound _ _ H) as Hw.
  pose proof (holds_write_offset _ _ H) as Ho.
  pose proof (holds_buffer _ _ _ H) as Hb.
  assert (Hfull : (next_index max_size (write_index_ q) =? read_index_ q) = false).
  { apply not_true_is_false. rewrite (holds_full_iff _ _ H). lia. }
  rewrite push_eq, Hfull. split; [reflexivity|].
  unfold after; cbn. split; cbn.
  - exact Hr.
  - rewrite length_app; cbn. lia.
  - rewrite length_app; cbn. rewrite next_index_spec by lia.
    rewrite (holds_write _ _ _ H).
    rewrite Z.add_mod_idemp_l by lia. f_equal. lia.
  - rewrite length_insert. exact Hb.
  - intros i Hi. destruct (Z.eq_dec i (write_index_ q)) as [->|Hne].
    + rewrite slot_at_insert_eq by lia. rewrite Ho.
      rewrite Nat2Z.id. symmetry.
      rewrite lookup_app_r by lia. rewrite Nat.sub_diag. reflexivity.
    + rewrite slot_at_insert_ne by lia.
      rewrite (holds_slots _ _ _ H) by lia.
      assert (Hk : (i - read_index_ q) mod max_size <> Z.of_nat (length l)).
      { rewrite <- Ho. rewrite !mod_sub_cases by lia.
        destruct (Z.leb_spec (read_index_ q) i);
          destruct (Z.leb_spec (read_index_ q) (write_index_ q)); lia. }
      assert (0 <= (i - read_index_ q) mod max_size) by (apply Z.mod_pos_bound; lia).
      destruct (Z.lt_ge_cases ((i - read_index_ q) mod max_size) (Z.of_nat (length l))).
      * rewrite lookup_app_l by lia. reflexivity.
      * rewrite !lookup_ge_None_2; [reflexivity | rewrite length_app; cbn; lia | lia].
Qed.

Lemma holds_pop_slot q t l :
  holds max_size q (t :: l) -> slot_at (buffer q) (read_index_ q) = Some t.
Proof.
  intros H. rewrite (holds_slots _ _ _ H) by (apply (holds_read _ _ _ H)).
  rewrite Z.sub_diag, Z.mod_0_l by lia. reflexivity.
Qed.

(** What every successful consumer step does to the ring. *)
Lemma holds_advance q t l :
  holds max_size q (t :: l) ->
  holds max_size (mk_ringbuffer_base (write_index_ q) (next_index max_size (read_index_ q))
           (pending_pop_read_index q)
           (<[Z.to_nat (read_index_ q) := None]> (buffer q))) l.
Proof.
  intros H.
  pose proof (holds_read _ _ _ H) as Hr. pose proof (holds_write_bound _ _ H) as Hw.
  pose proof (holds_length _ _ _ H) as Hn. cbn [length] in Hn.
  pose proof (holds_buffer _ _ _ H) as Hb.
  pose proof (next_index_bound max_size max_size_pos max_size_size_t _ Hr) as Hnx.
  pose proof (next_index_cases max_size max_size_pos max_size_size_t _ Hr) as Hnc.
  split; cbn [read_index_ write_index_ buffer].
  - exact Hnx.
  - lia.
  - rewrite (holds_write _ _ _ H). cbn [length].
    rewrite next_index_spec by lia.
    rewrite Z.add_mod_idemp_l by lia. f_equal. lia.
  - rewrite length_insert. exact Hb.
  - intros i Hi. destruct (Z.eq_dec i (read_index_ q)) as [->|Hne].
    + rewrite slot_at_insert_eq by lia. symmetry. apply lookup_ge_None_2.
      rewrite mod_sub_cases by lia. rewrite Hnc.
      destruct (Z.ltb_spec (read_index_ q + 1) max_size);
        [destruct (Z.leb_spec (read_index_ q + 1) (read_index_ q))
        |destruct (Z.leb_spec 0 (read_index_ q))]; lia.
    + rewrite slot_at_insert_ne by lia.
      rewrite (holds_slots _ _ _ H) by lia.
      assert (Hk : (i - read_index_ q) mod max_size
                   = (i - next_index max_size (read_index_ q)) mod max_size + 1).
      { rewrite !mod_sub_cases by lia. rewrite Hnc.
        destruct (Z.ltb_spec (read_index_ q + 1) max_size);
          destruct (Z.leb_spec (read_index_ q) i);
          [destruct (Z.leb_spec (read_index_ q + 1) i)
          |destruct (Z.leb_spec (read_index_ q + 1) i)
          |destruct (Z.leb_spec 0 i)
          |destruct (Z.leb_spec 0 i)]; lia. }
      rewrite Hk.
      assert (0 <= (i - next_index max_size (read_index_ q)) mod max_size)
        by (apply Z.mod_pos_bound; lia).
      rewrite Z2Nat.inj_add by lia.
      change (Z.to_nat 1) with 1%nat. rewrite Nat.add_1_r. reflexivity.
Qed.

Lemma holds_pop q t l out :
  holds max_size q (t :: l) ->
  pop max_size out q =
    (true, t,
     mk_ringbuffer_base (write_index_ q) (next_index max_size (read_index_ q))
       (pending_pop_read_index q)
       (<[Z.to_nat (read_index_ q) := None]> (buffer q)),
     [CopyAssign (read_index_ q); Dtor (read_index_ q)])
  /\ holds max_size (after (pop max_size out q)) l.
Proof.
  intros H.
  assert (He : (write_index_ q =? read_index_ q) = false).
  { apply not_true_is_false. rewrite (holds_empty_iff _ _ H). discriminate. }
  rewrite pop_eq, He, (holds_pop_slot _ _ _ H). split; [reflexivity|].
  exact (holds_advance _ _ _ H).
Qed.

Lemma holds_consume_one {F} (f : T -> F -> F) (fs : F) q t l :
  holds max_size q (t :: l) ->
  consume_one max_size f fs q =
    (true, f t fs,
     mk_ringbuffer_base (write_index_ q) (next_index max_size (read_index_ q))
       (pending_pop_read_index q)
       (<[Z.to_nat (read_index_ q) := None]> (buffer q)),
     [Call (read_index_ q); Dtor (read_index_ q)])
  /\ holds max_size (after (consume_one max_size f fs q)) l.
Proof.
  intros H.
  assert (He : (write_index_ q =? read_index_ q) = false).
  { apply not_true_is_false. rewrite (holds_empty_iff _ _ H). discriminate. }
  rewrite consume_one_eq, He, (holds_pop_slot _ _ _ H). split; [reflexivity|].
  exact (holds_advance _ _ _ H).
Qed.
End representation_facts.

(** ** [size()] and the occupied slots *)

Section size_facts.
Context {T : Type}.
Variable max_size : Z.
Hypothesis max_size_pos : 0 < max_size.
Hypothesis max_size_size_t : max_size < size_t.modulus.
Implicit Types (q : ringbuffer_base T) (l : list T).

Lemma size_cases q :
  0 <= read_index_ q < max_size -> 0 <= write_index_ q < max_size ->
  result (size max_size q) =
    if read_index_ q >? write_index_ q
    then write_index_ q - read_index_ q + max_size
    else write_index_ q - read_index_ q.
Proof.
  intros Hr Hw. rewrite size_eq. unfold result; cbn.
  destruct (Z.gtb_spec (read_index_ q) (write_index_ q)).
  - unfold size_t.sub, size_t.add, size_t.wrap.
    rewrite Zminus_mod_idemp_l. rewrite Z.mod_small by lia. lia.
  - unfold size_t.sub, size_t.wrap. apply Z.mod_small. lia.
Qed.

Lemma size_mod q :
  0 <= read_index_ q < max_size -> 0 <= write_index_ q < max_size ->
  result (size max_size q) = (write_index_ q - read_index_ q) mod max_size.
Proof.
  intros Hr Hw. rewrite size_cases, mod_sub_cases by lia.
  destruct (Z.gtb_spec (read_index_ q) (write_index_ q));
    destruct (Z.leb_spec (read_index_ q) (write_index_ q)); lia.
Qed.

Lemma size_holds q l :
  holds max_size q l -> result (size max_size q) = Z.of_nat (length l).
Proof.
  intros H. rewrite size_mod.
  - exact (holds_write_offset max_size max_size_pos _ _ H).
  - exact (holds_read _ _ _ H).
  - exact (holds_write_bound max_size max_size_pos _ _ H).
Qed.

(** Counting the slots that hold an object, index by index. *)
Lemma occupied_by_index (b : list (option T)) (P : Z -> Prop)
    `{!forall i, Decision (P i)} (start : Z) :
  (forall k x, b !! k = Some x -> (is_Some x <-> P (start + Z.of_nat k))) ->
  length (filter is_Some b) = length (filter P (seqZ start (Z.of_nat (length b)))).
Proof.
  revert start. induction b as [|x b IH]; intros start Hb.
  - reflexivity.
  - cbn [length]. rewrite seqZ_cons by lia.
    replace (Z.pred (Z.of_nat (S (length b)))) with (Z.of_nat (length b)) by lia.
    pose proof (Hb 0%nat x eq_refl) as H0. rewrite Z.add_0_r in H0.
    assert (IH' : length (filter is_Some b)
                  = length (filter P (seqZ (Z.succ start) (Z.of_nat (length b))))).
    { apply IH. intros k y Hk. rewrite (Hb (S k) y Hk).
      replace (start + Z.of_nat (S k)) with (Z.succ start + Z.of_nat k) by lia.
      reflexivity. }
    rewrite !filter_cons.
    destruct (decide (is_Some x)) as [Hx|Hx]; destruct (decide (P start)) as [Hp|Hp];
      cbn [length]; tauto || lia.
Qed.

(** The number of indices below [n] in the cyclic range. *)
Lemma in_ring_count (read write : Z) (n : nat) :
  0 <= read -> 0 <= write ->
  Z.of_nat (length (filter (fun i => in_ring read write i = true) (seqZ 0 (Z.of_nat n)))) =
    if read <=? write
    then Z.min write (Z.of_nat n) - Z.min read (Z.of_nat n)
    else Z.min write (Z.of_nat n) + (Z.of_nat n - Z.min read (Z.of_nat n)).
Proof.
  intros Hr Hw. induction n as [|n IH].
  - rewrite seqZ_nil by lia. rewrite filter_nil. cbn [length].
    destruct (read <=? write); lia.
  - rewrite seqZ_S, filter_app, length_app, Nat2Z.inj_add, IH.
    rewrite filter_cons, filter_nil. rewrite Z.add_0_l.
    unfold in_ring.
    destruct (Z.leb_spec read write);
      destruct (Z.leb_spec read (Z.of_nat n));
      destruct (Z.ltb_spec (Z.of_nat n) write);
      cbn [andb orb];
      (destruct (decide _) as [E|E]; [|try (exfalso; apply E; reflexivity)]);
      try discriminate E; cbn [length]; lia.
Qed.

Lemma occupied_slots_size q :
  ring_inv max_size q -> Z.of_nat (occupied_slots q) = result (size max_size q).
Proof.
  intros (Hr & Hw & Hb & Hs). unfold occupied_slots.
  rewrite (occupied_by_index (buffer q)
             (fun i => in_ring (read_index_ q) (write_index_ q) i = true) 0).
  - rewrite in_ring_count by lia. rewrite size_cases by lia.
    rewrite Hb. rewrite Z2Nat.id by lia.
    destruct (Z.leb_spec (read_index_ q) (write_index_ q));
      destruct (Z.gtb_spec (read_index_ q) (write_index_ q)); lia.
  - intros k x Hk. rewrite Z.add_0_l.
    assert (Hlt : (k < length (buffer q))%nat) by (eapply lookup_lt_Some; exact Hk).
    rewrite <- Hs by lia. unfold slot_at. rewrite Nat2Z.id, Hk. reflexivity.
Qed.

(** A ring that holds a queue satisfies the invariant of the data
    model. *)
Lemma holds_ring_inv q l : holds max_size q l -> ring_inv max_size q.
Proof.
  intros H.
  pose proof (holds_read _ _ _ H) as Hr.
  pose proof (holds_write_bound max_size max_size_pos _ _ H) as Hw.
  pose proof (holds_write_offset max_size max_size_pos _ _ H) as Ho.
  pose proof (holds_length _ _ _ H) as Hn.
  repeat split; try lia.
  - exact (holds_buffer _ _ _ H).
  - rewrite (holds_slots _ _ _ H) by lia. intros Hsome.
    apply lookup_lt_is_Some in Hsome.
    assert (0 <= (i - read_index_ q) mod max_size) by (apply Z.mod_pos_bound; lia).
    assert (Hlt : (i - read_index_ q) mod max_size < (write_index_ q - read_index_ q) mod max_size) by lia.
    rewrite !mod_sub_cases in Hlt by lia. unfold in_ring.
    destruct (Z.leb_spec (read_index_ q) (write_index_ q));
      destruct (Z.leb_spec (read_index_ q) i);
      destruct (Z.ltb_spec i (write_index_ q)); cbn; lia.
  - rewrite (holds_slots _ _ _ H) by lia. intros Hin.
    apply lookup_lt_is_Some.
    assert (0 <= (i - read_index_ q) mod max_size) by (apply Z.mod_pos_bound; lia).
    enough ((i - read_index_ q) mod max_size < (write_index_ q - read_index_ q) mod max_size) by lia.
    rewrite !mod_sub_cases by lia. unfold in_ring in Hin.
    destruct (Z.leb_spec (read_index_ q) (write_index_ q));
      destruct (Z.leb_spec (read_index_ q) i);
      destruct (Z.ltb_spec i (write_index_ q)); cbn in Hin; try discriminate Hin; lia.
Qed.
End size_facts.

(** ** Sequences of calls *)

Section call_facts.
Context {T : Type}.
Variable max_size : Z.
Hypothesis max_size_pos : 0 < max_size.
Hypothesis max_size_size_t : max_size < size_t.modulus.
Implicit Types (q : ringbuffer_base T) (l : list T) (h : @history T).

Lemma omap_lookup_seqZ (f : Z -> option T) l :
  (forall k, 0 <= k < Z.of_nat (length l) -> f k = l !! Z.to_nat k) ->
  omap f (seqZ 0 (Z.of_nat (length l))) = l.
Proof.
  induction l as [|t l IH] using rev_ind; intros Hf.
  - reflexivity.
  - rewrite length_app in *. cbn [length] in *.
    rewrite Nat.add_1_r in *. rewrite seqZ_S, omap_app. f_equal.
    + apply IH. intros k Hk. rewrite Hf by lia.
      apply lookup_app_l. lia.
    + cbn. rewrite Z.add_0_l. rewrite Hf by lia. rewrite Nat2Z.id.
      rewrite lookup_app_r by lia. rewrite Nat.sub_diag. reflexivity.
Qed.

Lemma contents_holds q l : holds max_size q l -> contents max_size q = l.
Proof.
  intros H. unfold contents. rewrite (size_holds max_size max_size_pos max_size_size_t _ _ H).
  apply omap_lookup_seqZ. intros k Hk.
  pose proof (holds_read _ _ _ H) as Hr. pose proof (holds_length _ _ _ H) as Hn.
  rewrite (holds_slots _ _ _ H) by (apply Z.mod_pos_bound; lia).
  rewrite Zminus_mod_idemp_l.
  replace (read_index_ q + k - read_index_ q) with k by lia.
  rewrite Z.mod_small by lia. reflexivity.
Qed.

(** Every call keeps the ring a representation of the values pushed and
    not yet handed out. *)
Lemma step_holds c q h l :
  holds max_size q l -> pushed h = popped h ++ l ->
  exists l',
    holds max_size (step max_size c (q, h)).1 l'
    /\ pushed (step max_size c (q, h)).2 = popped (step max_size c (q, h)).2 ++ l'.
Proof.
  intros H Hh. destruct c as [t|ret| | |]; cbn [step].
  - (* push *)
    destruct (Z.eqb_spec (next_index max_size (write_index_ q)) (read_index_ q)) as [E|E].
    + exists l. rewrite push_eq.
      rewrite (proj2 (Z.eqb_eq _ _) E). cbn. split; assumption.
    + assert (Hn : Z.of_nat (length l) < max_size - 1).
      { pose proof (holds_length _ _ _ H).
        pose proof (holds_full_iff max_size max_size_pos max_size_size_t _ _ H) as Hf.
        rewrite Z.eqb_eq in Hf. lia. }
      destruct (holds_push max_size max_size_pos max_size_size_t q l t H Hn) as [Eq Hq].
      exists (l ++ [t]). cbn [fst snd]. split; [exact Hq|].
      rewrite Eq. cbn. rewrite Hh. rewrite <- app_assoc. reflexivity.
  - (* pop *)
    destruct l as [|t l].
    + exists []. rewrite pop_eq.
      rewrite (proj2 (holds_empty_iff max_size max_size_pos _ _ H) eq_refl).
      cbn. split; assumption.
    + destruct (holds_pop max_size max_size_pos max_size_size_t q t l ret H) as [Eq Hq].
      exists l. cbn [fst snd]. split; [exact Hq|].
      rewrite Eq. cbn. rewrite Hh. rewrite <- app_assoc. reflexivity.
  - (* consume_one *)
    destruct l as [|t l].
    + exists []. rewrite consume_one_eq.
      rewrite (proj2 (holds_empty_iff max_size max_size_pos _ _ H) eq_refl).
      cbn. split; assumption.
    + destruct (holds_consume_one max_size max_size_pos max_size_size_t
                  record_value (popped h) q t l H) as [Eq Hq].
      exists l. cbn [fst snd]. split; [exact Hq|].
      rewrite Eq. cbn. unfold record_value. rewrite Hh. rewrite <- app_assoc. reflexivity.
  - exists l. rewrite empty_eq. cbn. split; assumption.
  - exists l. rewrite size_eq. cbn. split; assumption.
Qed.

Lemma run_holds cs q h l :
  holds max_size q l -> pushed h = popped h ++ l ->
  exists l',
    holds max_size (run max_size cs (q, h)).1 l'
    /\ pushed (run max_size cs (q, h)).2 = popped (run max_size cs (q, h)).2 ++ l'.
Proof.
  revert q h l. induction cs as [|c cs IH]; intros q h l H Hh.
  - exists l. split; assumption.
  - cbn [run fold_left].
    destruct (step_holds c q h l H Hh) as (l1 & H1 & Hh1).
    destruct (step max_size c (q, h)) as [q1 h1].
    exact (IH q1 h1 l1 H1 Hh1).
Qed.
End call_facts.

(** C1: whatever calls one producer and one consumer make on a fresh
    ring, in whatever order, the values the successful [pop] and
    [consume_one] calls hand out are the values of the successful [push]
    calls in the same order: the pushed sequence is the popped sequence
    followed by what the ring still holds, so the two are equal as soon
    as the ring is empty again. *)
Theorem fifo_order {T : Type} (max_size : Z) (cs : list (@call T)) :
  0 < max_size -> max_size < size_t.modulus ->
  let s := run max_size cs (start max_size) in
  pushed s.2 = popped s.2 ++ contents max_size s.1
  /\ (result (empty s.1) = true -> popped s.2 = pushed s.2).
Proof.
  intros Hpos Hmax s.
  destruct (run_holds max_size Hpos Hmax cs
              (ringbuffer_base_ctor max_size).1 (mk_history [] []) []
              (holds_ctor max_size Hpos) eq_refl) as (l & H & Hh).
  change (holds max_size s.1 l) in H.
  change (pushed s.2 = popped s.2 ++ l) in Hh.
  rewrite (contents_holds max_size Hpos Hmax _ _ H).
  split; [exact Hh|].
  rewrite empty_eq. unfold result; cbn. intros He.
  apply (holds_empty_iff max_size Hpos _ _ H) in He. subst l.
  rewrite Hh. rewrite app_nil_r. reflexivity.
Qed.

(** Pushing 1, 2, 3 into a ring of four usable slots and popping three
    times yields 1, 2, 3. *)
Lemma fifo_order_witness :
  let s := run 5 [CallPush 1; CallPush 2; CallPush 3;
                  CallPop 0; CallPop 0; CallPop 0] (start 5) in
  (pushed s.2 = popped s.2 ++ contents 5 s.1
   /\ (result (empty s.1) = true -> popped s.2 = pushed s.2))
  /\ popped s.2 = [1; 2; 3].
Proof.
  split.
  - apply (fifo_order 5); [lia | reflexivity].
  - reflexivity.
Defined.

(** ** Filling and emptying the ring *)

Section fill_facts.
Context {T : Type}.
Variable max_size : Z.
Hypothesis max_size_pos : 0 < max_size.
Hypothesis max_size_size_t : max_size < size_t.modulus.
Implicit Types (q : ringbuffer_base T) (l ts : list T) (t : T).

Lemma push_each_cons t ts q :
  result (push_each max_size (t :: ts) q) =
    result (push max_size t q) :: result (push_each max_size ts (after (push max_size t q)))
  /\ after (push_each max_size (t :: ts) q) =
       after (push_each max_size ts (after (push max_size t q))).
Proof.
  cbn [push_each]. unfold mbind, M_bind, mret, M_ret, result, after.
  destruct (push max_size t q) as [[ok q1] e1]. cbn [fst snd].
  destruct (push_each max_size ts q1) as [[oks q2] e2]. split; reflexivity.
Qed.

Lemma pop_times_S n t q :
  result (pop_times max_size (S n) t q) =
    result (pop max_size t q)
    :: result (pop_times max_size n (result (pop max_size t q)).2 (after (pop max_size t q)))
  /\ after (pop_times max_size (S n) t q) =
       after (pop_times max_size n (result (pop max_size t q)).2 (after (pop max_size t q))).
Proof.
  cbn [pop_times]. unfold mbind, M_bind, mret, M_ret, result, after.
  destruct (pop max_size t q) as [[[ok t1] q1] e1]. cbn [fst snd].
  destruct (pop_times max_size n t1 q1) as [[rs q2] e2]. split; reflexivity.
Qed.

(** While there is room, every [push] succeeds and appends its value. *)
Lemma push_each_holds ts q l :
  holds max_size q l ->
  Z.of_nat (length l) + Z.of_nat (length ts) < max_size ->
  result (push_each max_size ts q) = replicate (length ts) true
  /\ holds max_size (after (push_each max_size ts q)) (l ++ ts).
Proof.
  revert q l. induction ts as [|t ts IH]; intros q l H Hn.
  - rewrite app_nil_r. split; [reflexivity | exact H].
  - cbn [length] in Hn.
    destruct (push_each_cons t ts q) as [-> ->].
    destruct (holds_push max_size max_size_pos max_size_size_t q l t H) as [E H1];
      [lia|].
    destruct (IH (after (push max_size t q)) (l ++ [t]) H1) as [-> H2].
    { rewrite length_app. cbn [length]. lia. }
    rewrite <- app_assoc in H2. split; [|exact H2].
    rewrite E. reflexivity.
Qed.

(** While there are elements, every [pop] succeeds and hands out the
    oldest. *)
Lemma pop_times_holds ts q l t :
  holds max_size q (ts ++ l) ->
  result (pop_times max_size (length ts) t q) = map (fun t' => (true, t')) ts
  /\ holds max_size (after (pop_times max_size (length ts) t q)) l.
Proof.
  revert q t. induction ts as [|t' ts IH]; intros q t H.
  - split; [reflexivity | exact H].
  - cbn [length]. destruct (pop_times_S (length ts) t q) as [-> ->].
    destruct (holds_pop max_size max_size_pos max_size_size_t q t' (ts ++ l) t H)
      as [E H1].
    destruct (IH (after (pop max_size t q)) (result (pop max_size t q)).2 H1)
      as [-> H2].
    split; [|exact H2]. rewrite E. reflexivity.
Qed.
End fill_facts.

(** C2: a fresh ring of capacity [N], whose block has [N + 1] slots, is
    empty; [N] pushes in a row all succeed and leave [size()] at [N];
    one more [push] returns [false] and changes nothing, so [size()]
    stays [N]; [N] pops then all succeed, after which the ring is empty
    again and a further [pop] returns [false]. *)
Theorem capacity_bound {T : Type} (N : Z) (ts : list T) (t ret : T) :
  0 <= N -> N + 1 < size_t.modulus -> Z.of_nat (length ts) = N ->
  let q0 : ringbuffer_base T := (ringbuffer_base_ctor (N + 1)).1 in
  let q1 := after (push_each (N + 1) ts q0) in
  let q2 := after (pop_times (N + 1) (length ts) ret q1) in
  Z.of_nat (length (buffer q0)) = N + 1
  /\ result (empty q0) = true
  /\ result (push_each (N + 1) ts q0) = replicate (length ts) true
  /\ result (size (N + 1) q1) = N
  /\ push (N + 1) t q1 = (false, q1, [])
  /\ result (size (N + 1) (after (push (N + 1) t q1))) = N
  /\ result (pop_times (N + 1) (length ts) ret q1) = map (fun t' => (true, t')) ts
  /\ result (empty q2) = true
  /\ pop (N + 1) ret q2 = (false, ret, q2, []).
Proof.
  intros HN Hmax Hlen q0 q1 q2.
  assert (Hpos : 0 < N + 1) by lia.
  pose proof (holds_ctor (T:=T) (N + 1) Hpos) as H0. fold q0 in H0.
  destruct (push_each_holds (N + 1) Hpos Hmax ts q0 [] H0) as [Hr1 H1].
  { cbn [length]. lia. }
  fold q1 in H1. rewrite app_nil_l in H1.
  assert (H1' : holds (N + 1) q1 (ts ++ [])) by (rewrite app_nil_r; exact H1).
  destruct (pop_times_holds (N + 1) Hpos Hmax ts q1 [] ret H1') as [Hr2 H2].
  fold q2 in H2.
  assert (Hfull : push (N + 1) t q1 = (false, q1, [])).
  { rewrite push_eq.
    rewrite (proj2 (holds_full_iff (N + 1) Hpos Hmax _ _ H1)) by lia.
    reflexivity. }
  split; [|split; [|split; [|split; [|split; [|split; [|split; [|split]]]]]]].
  - subst q0. cbn. rewrite length_replicate. lia.
  - reflexivity.
  - exact Hr1.
  - rewrite (size_holds (N + 1) Hpos Hmax _ _ H1). exact Hlen.
  - exact Hfull.
  - rewrite Hfull. unfold after at 1. cbn [fst snd].
    rewrite (size_holds (N + 1) Hpos Hmax _ _ H1). exact Hlen.
  - exact Hr2.
  - rewrite empty_eq. unfold result; cbn.
    apply (holds_empty_iff (N + 1) Hpos _ _ H2). reflexivity.
  - rewrite pop_eq.
    rewrite (proj2 (holds_empty_iff (N + 1) Hpos _ _ H2) eq_refl). reflexivity.
Qed.

(** The round trip on a ring of capacity 3. *)
Lemma capacity_bound_witness :
  let q0 : ringbuffer_base Z := (ringbuffer_base_ctor (3 + 1)).1 in
  let q1 := after (push_each (3 + 1) [10; 20; 30] q0) in
  let q2 := after (pop_times (3 + 1) 3 0 q1) in
  Z.of_nat (length (buffer q0)) = 3 + 1
  /\ result (empty q0) = true
  /\ result (push_each (3 + 1) [10; 20; 30] q0) = [true; true; true]
  /\ result (size (3 + 1) q1) = 3
  /\ push (3 + 1) 40 q1 = (false, q1, [])
  /\ result (size (3 + 1) (after (push (3 + 1) 40 q1))) = 3
  /\ result (pop_times (3 + 1) 3 0 q1) = [(true, 10); (true, 20); (true, 30)]
  /\ result (empty q2) = true
  /\ pop (3 + 1) 0 q2 = (false, 0, q2, []).
Proof.
  apply (capacity_bound 3 [10; 20; 30] 40 0); [lia | reflexivity | reflexivity].
Defined.

(** ** Failure, peeking, resetting *)

(** C4: [push] returns [false] exactly when the advance of the write
    index equals the read index, and then changes nothing and touches no
    object; [pop] and [consume_one] return [false] exactly when the two
    indices are equal, and then change nothing, touch no object and leave
    the output argument (the functor's state) as it was.  The member
    functions are total and have no other way to report a failure. *)
Theorem full_and_empty_are_the_only_failures {T F : Type} (max_size : Z)
    (q : ringbuffer_base T) (t ret : T) (f : T -> F -> F) (fs : F) :
  (result (push max_size t q) = false
   <-> next_index max_size (write_index_ q) = read_index_ q)
  /\ (result (push max_size t q) = false -> push max_size t q = (false, q, []))
  /\ ((result (pop max_size ret q)).1 = false <-> write_index_ q = read_index_ q)
  /\ ((result (pop max_size ret q)).1 = false ->
      pop max_size ret q = (false, ret, q, []))
  /\ ((result (consume_one max_size f fs q)).1 = false
      <-> write_index_ q = read_index_ q)
  /\ ((result (consume_one max_size f fs q)).1 = false ->
      consume_one max_size f fs q = (false, fs, q, [])).
Proof.
  rewrite push_eq, pop_eq, consume_one_eq. unfold result.
  destruct (Z.eqb_spec (next_index max_size (write_index_ q)) (read_index_ q));
    destruct (Z.eqb_spec (write_index_ q) (read_index_ q)); cbn;
    repeat split; intros; congruence.
Qed.

(** C8: [reset()] stores 0 into both indices and nothing else: the
    pending index and the block are as before, and no event occurs, so no
    destructor of [T] runs. *)
Theorem reset_only_clears_the_indices {T : Type} (q : ringbuffer_base T) :
  write_index_ (after (reset q)) = 0
  /\ read_index_ (after (reset q)) = 0
  /\ pending_pop_read_index (after (reset q)) = pending_pop_read_index q
  /\ buffer (after (reset q)) = buffer q
  /\ events (reset q) = []
  /\ destroyed (events (reset q)) = [].
Proof. rewrite reset_eq. repeat split. Qed.

(** C10: [front()] and [pop()] test nothing.  On every object [front()]
    copies the read index into the pending index and returns the slot at
    that index; [pop()] runs the destructor on the slot at the pending
    index and stores the advance of the pending index into the read
    index.  So on an empty ring [front()] returns a slot that holds no
    object, and [front()] then [pop()] run a destructor on it and move the
    read index one past the write index. *)
Theorem front_and_pop0_are_unchecked {T : Type} (max_size : Z)
    (q : ringbuffer_base T) :
  front q =
    (read_index_ q,
     mk_ringbuffer_base (write_index_ q) (read_index_ q) (read_index_ q) (buffer q),
     [])
  /\ pop0 max_size q =
       (tt,
        mk_ringbuffer_base (write_index_ q)
          (next_index max_size (pending_pop_read_index q))
          (pending_pop_read_index q)
          (<[Z.to_nat (pending_pop_read_index q) := None]> (buffer q)),
        [Dtor (pending_pop_read_index q)])
  /\ (1 < max_size -> max_size < size_t.modulus -> holds max_size q [] ->
      result (empty q) = true
      /\ slot_at (buffer q) (result (front q)) = None
      /\ events (pop0 max_size (after (front q))) = [Dtor (read_index_ q)]
      /\ read_index_ (after (pop0 max_size (after (front q))))
         = next_index max_size (write_index_ q)
      /\ read_index_ (after (pop0 max_size (after (front q))))
         <> write_index_ (after (pop0 max_size (after (front q))))
      /\ result (size max_size (after (pop0 max_size (after (front q)))))
         = max_size - 1).
Proof.
  split; [apply front_eq|]. split; [apply pop0_eq|].
  intros H1 Hmax H.
  assert (Hpos : 0 < max_size) by lia.
  pose proof (holds_read _ _ _ H) as Hr.
  assert (E : write_index_ q = read_index_ q).
  { apply Z.eqb_eq. apply (holds_empty_iff max_size Hpos _ _ H). reflexivity. }
  pose proof (next_index_bound max_size Hpos Hmax _ Hr) as Hb.
  pose proof (next_index_cases max_size Hpos Hmax _ Hr) as Hc.
  rewrite front_eq, pop0_eq, empty_eq. unfold result, after, events; cbn.
  rewrite E.
  split; [apply Z.eqb_refl|].
  split.
  { rewrite (holds_slots _ _ _ H) by lia. apply lookup_nil. }
  split; [reflexivity|]. split; [reflexivity|].
  split.
  { rewrite Hc. destruct (Z.ltb_spec (read_index_ q + 1) max_size); lia. }
  pose proof (size_cases max_size Hmax
                (mk_ringbuffer_base (read_index_ q) (next_index max_size (read_index_ q))
                   (read_index_ q) (<[Z.to_nat (read_index_ q) := None]> (buffer q)))
                Hb Hr) as Hs.
  unfold result in Hs. cbn [read_index_ write_index_] in Hs. rewrite Hs.
  rewrite Hc.
  destruct (Z.ltb_spec (read_index_ q + 1) max_size);
    [destruct (Z.gtb_spec (read_index_ q + 1) (read_index_ q))
    |destruct (Z.gtb_spec 0 (read_index_ q))]; lia.
Qed.

Lemma front_and_pop0_are_unchecked_witness :
  let q : ringbuffer_base Z := (ringbuffer_base_ctor 4).1 in
  result (empty q) = true
  /\ slot_at (buffer q) (result (front q)) = None
  /\ events (pop0 4 (after (front q))) = [Dtor (read_index_ q)]
  /\ read_index_ (after (pop0 4 (after (front q)))) = next_index 4 (write_index_ q)
  /\ read_index_ (after (pop0 4 (after (front q))))
     <> write_index_ (after (pop0 4 (after (front q))))
  /\ result (size 4 (after (pop0 4 (after (front q))))) = 4 - 1.
Proof.
  intros q.
  apply (proj2 (proj2 (front_and_pop0_are_unchecked 4 q)));
    [lia | reflexivity | apply holds_ctor; lia].
Defined.

(** C6: on a ring that is not empty, [front()] followed by [pop()] leaves
    the same write index, read index and block as [pop(ret)], and each of
    the two runs one destructor, on the slot at the read index; under the
    invariant of the data model that slot held an object before and holds
    none afterwards.  The pending index is private to the consumer and is
    the one member that can differ: [front()] sets it to the read index,
    [pop(ret)] leaves it alone. *)
Theorem front_pop0_equals_pop {T : Type} (max_size : Z)
    (q : ringbuffer_base T) (ret : T) :
  write_index_ q <> read_index_ q ->
  let a := pop0 max_size (after (front q)) in
  let b := pop max_size ret q in
  write_index_ (after a) = write_index_ (after b)
  /\ read_index_ (after a) = read_index_ (after b)
  /\ read_index_ (after a) = next_index max_size (read_index_ q)
  /\ buffer (after a) = buffer (after b)
  /\ destroyed (events (front q) ++ events a) = [read_index_ q]
  /\ destroyed (events b) = [read_index_ q]
  /\ pending_pop_read_index (after a) = read_index_ q
  /\ pending_pop_read_index (after b) = pending_pop_read_index q
  /\ (ring_inv max_size q ->
      is_Some (slot_at (buffer q) (read_index_ q))
      /\ slot_at (buffer (after a)) (read_index_ q) = None
      /\ Z.of_nat (occupied_slots (after a)) + 1 = Z.of_nat (occupied_slots q)).
Proof.
  intros Hne a b. subst a b.
  rewrite front_eq, pop0_eq, pop_eq.
  rewrite (proj2 (Z.eqb_neq _ _) Hne).
  unfold after, events; cbn.
  repeat (split; [reflexivity|]).
  intros (Hr & Hw & Hb & Hs).
  assert (Hlive : is_Some (slot_at (buffer q) (read_index_ q))).
  { apply Hs; [lia|]. unfold in_ring.
    destruct (Z.leb_spec (read_index_ q) (write_index_ q));
      destruct (Z.leb_spec (read_index_ q) (read_index_ q));
      destruct (Z.ltb_spec (read_index_ q) (write_index_ q)); cbn; lia. }
  split; [exact Hlive|]. split.
  - apply slot_at_insert_eq; lia.
  - unfold occupied_slots; cbn [buffer].
    unfold slot_at in Hlive. destruct Hlive as [t Ht].
    destruct (buffer q !! Z.to_nat (read_index_ q)) as [x|] eqn:E; [|discriminate Ht].
    cbn in Ht. subst x.
    rewrite <- (take_drop_middle _ _ _ E) at 2.
    rewrite insert_take_drop by (eapply lookup_lt_Some; exact E).
    rewrite !filter_app, !filter_cons, !length_app.
    destruct (decide (is_Some (Some t))) as [_|n]; [|exfalso; apply n; eexists; reflexivity].
    destruct (decide (is_Some (@None T))) as [[? Hx]|_]; [discriminate Hx|].
    cbn [length]. lia.
Qed.

Lemma front_pop0_equals_pop_witness :
  let q : ringbuffer_base Z := after (push_each 4 [7; 8] (ringbuffer_base_ctor 4).1) in
  let a := pop0 4 (after (front q)) in
  let b := pop 4 0 q in
  write_index_ (after a) = write_index_ (after b)
  /\ read_index_ (after a) = read_index_ (after b)
  /\ read_index_ (after a) = next_index 4 (read_index_ q)
  /\ buffer (after a) = buffer (after b)
  /\ destroyed (events (front q) ++ events a) = [read_index_ q]
  /\ destroyed (events b) = [read_index_ q]
  /\ pending_pop_read_index (after a) = read_index_ q
  /\ pending_pop_read_index (after b) = pending_pop_read_index q
  /\ is_Some (slot_at (buffer q) (read_index_ q))
  /\ slot_at (buffer (after a)) (read_index_ q) = None
  /\ Z.of_nat (occupied_slots (after a)) + 1 = Z.of_nat (occupied_slots q).
Proof.
  intros q.
  assert (Hne : write_index_ q <> read_index_ q) by (vm_compute; discriminate).
  assert (Hinv : ring_inv 4 q).
  { apply (holds_ring_inv 4 ltac:(lia) q [7; 8]).
    apply (push_each_holds 4 ltac:(lia) ltac:(reflexivity) [7; 8] _ []).
    - apply holds_ctor. lia.
    - cbn. lia. }
  destruct (front_pop0_equals_pop 4 q 0 Hne)
    as (H1 & H2 & H3 & H4 & H5 & H6 & H7 & H8 & H9).
  destruct (H9 Hinv) as (H10 & H11 & H12).
  intros a b.
  exact (conj H1 (conj H2 (conj H3 (conj H4 (conj H5 (conj H6 (conj H7
           (conj H8 (conj H10 (conj H11 H12)))))))))).
Defined.

(** C7: with both indices in [0, capacity], [size()] is the forward
    cyclic distance from the read index to the write index: their
    difference when the read index is not beyond the write index, and the
    difference plus [capacity + 1] when it is; it changes nothing; and on
    a ring that satisfies the invariant of the data model it is the
    number of slots that hold an object. *)
Theorem size_is_cyclic_distance {T : Type} (capacity : Z) (q : ringbuffer_base T) :
  0 <= capacity -> capacity + 1 < size_t.modulus ->
  0 <= read_index_ q <= capacity -> 0 <= write_index_ q <= capacity ->
  result (size (capacity + 1) q) =
    (if read_index_ q >? write_index_ q
     then write_index_ q - read_index_ q + (capacity + 1)
     else write_index_ q - read_index_ q)
  /\ result (size (capacity + 1) q)
     = (write_index_ q - read_index_ q) mod (capacity + 1)
  /\ 0 <= result (size (capacity + 1) q) <= capacity
  /\ after (size (capacity + 1) q) = q
  /\ (ring_inv (capacity + 1) q ->
      Z.of_nat (occupied_slots q) = result (size (capacity + 1) q)).
Proof.
  intros Hc Hmax Hr Hw.
  assert (Hpos : 0 < capacity + 1) by lia.
  split; [apply size_cases; lia|].
  split; [apply size_mod; lia|].
  split.
  { rewrite size_cases by lia.
    destruct (Z.gtb_spec (read_index_ q) (write_index_ q)); lia. }
  split; [rewrite size_eq; reflexivity|].
  apply occupied_slots_size; assumption.
Qed.

Lemma size_is_cyclic_distance_witness :
  let q : ringbuffer_base Z :=
    mk_ringbuffer_base 1 3 0 [Some 5; None; None; Some 4] in
  result (size (3 + 1) q) = 1 - 3 + (3 + 1)
  /\ result (size (3 + 1) q) = (1 - 3) mod (3 + 1)
  /\ 0 <= result (size (3 + 1) q) <= 3
  /\ after (size (3 + 1) q) = q
  /\ Z.of_nat (occupied_slots q) = result (size (3 + 1) q).
Proof.
  intros q.
  destruct (size_is_cyclic_distance 3 q) as (H1 & H2 & H3 & H4 & H5);
    [lia | reflexivity | cbn; lia | cbn; lia |].
  repeat (split; [assumption|]). apply H5.
  unfold ring_inv; cbn. repeat split; try lia.
  - intros [t Ht].
    assert (Hi : i = 0 \/ i = 1 \/ i = 2 \/ i = 3) by lia.
    destruct Hi as [-> | [-> | [-> | ->]]]; cbn in Ht; try discriminate Ht; reflexivity.
  - intros Hin.
    assert (Hi : i = 0 \/ i = 1 \/ i = 2 \/ i = 3) by lia.
    destruct Hi as [-> | [-> | [-> | ->]]]; cbn in Hin; try discriminate Hin;
      eexists; reflexivity.
Defined.

(** ** The destructor *)

Section dtor_facts.
Context {T : Type}.
Variable max_size : Z.
Hypothesis max_size_pos : 0 < max_size.
Hypothesis max_size_size_t : max_size < size_t.modulus.
Implicit Types (q : ringbuffer_base T) (l : list T) (t : T).

Lemma destroyed_drained slots : destroyed (drained slots) = slots.
Proof.
  unfold drained. induction slots as [|i slots IH]; [reflexivity|].
  cbn. f_equal. exact IH.
Qed.

Lemma drain_S fuel t q :
  drain max_size (S fuel) t q =
    let r := pop max_size t q in
    if (result r).1
    then
      let r' := drain max_size fuel (result r).2 (after r) in
      (result r', after r', events r ++ events r')
    else (Some (result r).2, after r, events r ++ []).
Proof.
  cbn [drain]. unfold mbind, M_bind, mret, M_ret, result, after, events.
  destruct (pop max_size t q) as [[[more t1] q1] e1]. cbn [fst snd].
  destruct more; [|reflexivity].
  destruct (drain max_size fuel t1 q1) as [[r2 q2] e2]. reflexivity.
Qed.

(** With fuel for one more test than there are elements, the loop ends:
    it has popped every element, oldest first, and left the ring empty. *)
Lemma drain_holds l q t fuel :
  holds max_size q l -> (length l < fuel)%nat ->
  is_Some (result (drain max_size fuel t q))
  /\ holds max_size (after (drain max_size fuel t q)) []
  /\ events (drain max_size fuel t q)
     = drained (indices_from max_size (read_index_ q) (length l)).
Proof.
  revert q t fuel. induction l as [|t' l IH]; intros q t fuel H Hfuel.
  - destruct fuel as [|fuel]; [cbn in Hfuel; lia|].
    rewrite drain_S. rewrite pop_eq.
    rewrite (proj2 (holds_empty_iff max_size max_size_pos _ _ H) eq_refl).
    cbn. split; [eexists; reflexivity|]. split; [exact H | reflexivity].
  - destruct fuel as [|fuel]; [cbn in Hfuel; lia|]. cbn [length] in Hfuel.
    rewrite drain_S.
    destruct (holds_pop max_size max_size_pos max_size_size_t q t' l t H) as [E H1].
    destruct (IH (after (pop max_size t q)) t' fuel H1) as (R & H2 & Ev); [lia|].
    rewrite E in *. cbv zeta. unfold result at 1. cbn [fst snd].
    unfold result, after, events in *. cbn [fst snd] in *.
    split; [|split].
    + exact R.
    + exact H2.
    + rewrite Ev. reflexivity.
Qed.

(** The slots the loop visits are the slots that hold an object, each
    once. *)
Lemma indices_from_holds l q :
  holds max_size q l ->
  NoDup (indices_from max_size (read_index_ q) (length l))
  /\ forall i, i ∈ indices_from max_size (read_index_ q) (length l)
               <-> 0 <= i < max_size /\ is_Some (slot_at (buffer q) i).
Proof.
  revert q. induction l as [|t l IH]; intros q H.
  - split; [constructor|]. intros i. cbn. split.
    + intros Hin. apply elem_of_nil in Hin. contradiction.
    + intros [Hi [x Hx]]. rewrite (holds_slots _ _ _ H) in Hx by lia.
      rewrite lookup_nil in Hx. discriminate Hx.
  - pose proof (holds_advance max_size max_size_pos max_size_size_t q t l H) as H1.
    destruct (IH _ H1) as [Hnd Hmem]. cbn [read_index_ buffer] in Hnd, Hmem.
    pose proof (holds_read _ _ _ H) as Hr.
    pose proof (holds_buffer _ _ _ H) as Hb.
    cbn [length indices_from]. split.
    + constructor; [|exact Hnd]. intros Hin. apply Hmem in Hin.
      destruct Hin as [_ [x Hx]].
      rewrite slot_at_insert_eq in Hx by lia. discriminate Hx.
    + intros i. rewrite elem_of_cons, Hmem. split.
      * intros [-> | [Hi Hs]].
        -- split; [exact Hr|]. rewrite (holds_pop_slot max_size max_size_pos _ _ _ H).
           eexists; reflexivity.
        -- split; [exact Hi|].
           destruct (Z.eq_dec (read_index_ q) i) as [<-|Hne].
           ++ rewrite slot_at_insert_eq in Hs by lia. destruct Hs as [x Hx]. discriminate Hx.
           ++ rewrite slot_at_insert_ne in Hs by lia. exact Hs.
      * intros [Hi Hs]. destruct (Z.eq_dec i (read_index_ q)) as [->|Hne].
        -- left; reflexivity.
        -- right. split; [exact Hi|]. rewrite slot_at_insert_ne by lia. exact Hs.
Qed.

Lemma length_indices_from i n : length (indices_from max_size i n) = n.
Proof. revert i. induction n as [|n IH]; intros i; cbn; [|rewrite IH]; reflexivity. Qed.

Lemma dtor_holds l q (T_default : T) fuel :
  holds max_size q l -> (length l < fuel)%nat ->
  ringbuffer_base_dtor max_size T_default fuel q =
    (Some tt,
     mk_ringbuffer_base (write_index_ (after (drain max_size fuel T_default q)))
       (read_index_ (after (drain max_size fuel T_default q)))
       (pending_pop_read_index (after (drain max_size fuel T_default q)))
       [],
     DefaultCtor
       :: drained (indices_from max_size (read_index_ q) (length l))
       ++ [AlignedFree; DtorLocal]).
Proof.
  intros H Hfuel.
  destruct (drain_holds l q T_default fuel H Hfuel) as ([t R] & _ & Ev).
  unfold ringbuffer_base_dtor. unfold mbind, M_bind, mret, M_ret, emit, set_buffer.
  unfold result, after, events in *.
  destruct (drain max_size fuel T_default q) as [[r q1] e1]. cbn [fst snd] in *.
  subst r e1. cbn. reflexivity.
Qed.
End dtor_facts.

(** C5, as the code has it: the destructor of a ring that holds [k]
    elements ends, and runs the destructor of [T] on each of the [k]
    slots that hold an object, once each and on no other slot; on an
    empty ring it runs it on no slot.  It does so through a scratch
    object that it default-constructs, copy-assigns every element to and
    destroys at the end, after which the block is released.  [push] asks
    of [T] only its copy constructor; [pop(ret)] also copy-assigns. *)
Theorem dtor_destroys_each_element_once {T : Type} (max_size : Z)
    (q : ringbuffer_base T) (l : list T) (T_default : T) (fuel : nat) :
  0 < max_size -> max_size < size_t.modulus ->
  holds max_size q l -> (length l < fuel)%nat ->
  let r := ringbuffer_base_dtor max_size T_default fuel q in
  result r = Some tt
  /\ length (destroyed (events r)) = length l
  /\ NoDup (destroyed (events r))
  /\ (forall i, i ∈ destroyed (events r)
                <-> 0 <= i < max_size /\ is_Some (slot_at (buffer q) i))
  /\ (l = [] -> events r = [DefaultCtor; AlignedFree; DtorLocal])
  /\ events r =
       DefaultCtor
         :: drained (indices_from max_size (read_index_ q) (length l))
         ++ [AlignedFree; DtorLocal]
  /\ buffer (after r) = []
  /\ (forall t, forallb only_copies_and_destroys (events (push max_size t q)) = true)
  /\ (forall ret, l <> [] ->
        events (pop max_size ret q)
        = [CopyAssign (read_index_ q); Dtor (read_index_ q)]).
Proof.
  intros Hpos Hmax H Hfuel r. subst r.
  rewrite (dtor_holds max_size Hpos Hmax l q T_default fuel H Hfuel).
  destruct (indices_from_holds max_size Hpos Hmax l q H) as [Hnd Hmem].
  assert (Hd : destroyed (DefaultCtor
                 :: drained (indices_from max_size (read_index_ q) (length l))
                 ++ [AlignedFree; DtorLocal])
               = indices_from max_size (read_index_ q) (length l)).
  { unfold destroyed. cbn [omap list_omap]. rewrite omap_app. cbn.
    rewrite app_nil_r. apply destroyed_drained. }
  unfold result, after, events. cbn [fst snd buffer]. rewrite Hd.
  split; [reflexivity|].
  split; [apply length_indices_from|].
  split; [exact Hnd|].
  split; [exact Hmem|].
  split; [intros ->; reflexivity|].
  split; [reflexivity|].
  split; [reflexivity|].
  split.
  - intros t. rewrite push_eq.
    destruct (next_index max_size (write_index_ q) =? read_index_ q); reflexivity.
  - intros ret Hne. destruct l as [|t l]; [congruence|].
    destruct (holds_pop max_size Hpos Hmax q t l ret H) as [-> _]. reflexivity.
Qed.

Lemma dtor_destroys_each_element_once_witness :
  let q : ringbuffer_base Z := after (push_each 4 [7; 8] (ringbuffer_base_ctor 4).1) in
  let r := ringbuffer_base_dtor 4 0 3 q in
  result r = Some tt
  /\ length (destroyed (events r)) = 2%nat
  /\ NoDup (destroyed (events r))
  /\ (forall i, i ∈ destroyed (events r)
                <-> 0 <= i < 4 /\ is_Some (slot_at (buffer q) i))
  /\ events r =
       DefaultCtor :: drained (indices_from 4 (read_index_ q) 2)
         ++ [AlignedFree; DtorLocal]
  /\ buffer (after r) = [].
Proof.
  intros q r.
  assert (H : holds 4 q [7; 8]).
  { apply (push_each_holds 4 ltac:(lia) ltac:(reflexivity) [7; 8] _ []).
    - apply holds_ctor. lia.
    - cbn. lia. }
  destruct (dtor_destroys_each_element_once 4 q [7; 8] 0 3
              ltac:(lia) ltac:(reflexivity) H ltac:(cbn; lia))
    as (H1 & H2 & H3 & H4 & _ & H6 & H7 & _).
  exact (conj H1 (conj H2 (conj H3 (conj H4 (conj H6 H7))))).
Defined.

(** C5, as the specification has it, fails: destroying a ring that holds
    two elements constructs a [T] by default and copy-assigns twice, so
    the class asks more of [T] than copy-construction and destruction. *)
Lemma dtor_needs_default_ctor_and_copy_assign :
  let q : ringbuffer_base Z := after (push_each 4 [7; 8] (ringbuffer_base_ctor 4).1) in
  let r := ringbuffer_base_dtor 4 0 3 q in
  result r = Some tt
  /\ events r = [DefaultCtor; CopyAssign 0; Dtor 0; CopyAssign 1; Dtor 1;
                 AlignedFree; DtorLocal]
  /\ forallb only_copies_and_destroys (events r) = false
  /\ ~ (forall e, e ∈ events r -> only_copies_and_destroys e = true).
Proof.
  cbv zeta. split; [reflexivity|]. split; [reflexivity|]. split; [reflexivity|].
  intros Hall. specialize (Hall DefaultCtor).
  assert (Hin : DefaultCtor ∈
    events (ringbuffer_base_dtor 4 0 3
              (after (push_each 4 [7; 8] (@ringbuffer_base_ctor Z 4).1)))).
  { change (DefaultCtor ∈ [DefaultCtor; CopyAssign 0; Dtor 0; CopyAssign 1; Dtor 1;
                           AlignedFree; DtorLocal]).
    apply elem_of_cons. left. reflexivity. }
  specialize (Hall Hin). discriminate Hall.
Qed.

(** ** The two threads, statement by statement *)

Section thread_facts.
Context {T : Type}.
Variable max_size : Z.
Hypothesis max_size_pos : 0 < max_size.
Hypothesis max_size_size_t : max_size < size_t.modulus.
Implicit Types (q : ringbuffer_base T) (l : list T) (g : list (option T))
  (cfg : @config T).

(** In a ring that is not empty the two indices name different slots. *)
Lemma holds_indices_apart q l :
  holds max_size q l -> l <> [] ->
  Z.to_nat (write_index_ q) <> Z.to_nat (read_index_ q).
Proof.
  intros H Hl.
  pose proof (holds_read _ _ _ H).
  pose proof (holds_write_bound max_size max_size_pos _ _ H).
  pose proof (holds_empty_iff max_size max_size_pos _ _ H) as He.
  rewrite Z.eqb_eq in He. intros E. apply Hl. apply He. lia.
Qed.

Lemma consumer_ok_push c q l t w :
  consumer_ok max_size c q l ->
  consumer_ok max_size c
    (mk_ringbuffer_base w (read_index_ q) (pending_pop_read_index q) (buffer q))
    (l ++ [t]).
Proof.
  destruct c as [|c' w0|c' r|got r|got r]; cbn.
  - trivial.
  - intros (n & Hn & E). exists n. rewrite length_app. cbn. split; [lia | exact E].
  - intros [E Hl]. split; [exact E|]. destruct l; [congruence | discriminate].
  - intros (E & v & l' & -> & Hg). split; [exact E|]. exists v, (l' ++ [t]). split; [reflexivity | exact Hg].
  - intros (E & v & l' & -> & Hg). split; [exact E|]. exists v, (l' ++ [t]). split; [reflexivity | exact Hg].
Qed.

Lemma producer_step_inv t cfg g l :
  threads_inv max_size cfg g l ->
  exists g' l', threads_inv max_size (producer_step max_size t cfg) g' l'.
Proof.
  intros [Hh Hb Hs Hp Hc]. destruct cfg as [q p c h]. cbn in Hh, Hb, Hs, Hp, Hc.
  destruct p as [|t' w|t' w next|t' w next]; cbn [producer_step prod shared cons seen].
  - exists g, l. split; cbn; try assumption. reflexivity.
  - unfold result; cbn. cbn in Hp. subst w.
    pose proof (holds_full_iff max_size max_size_pos max_size_size_t _ _ Hh) as Hf.
    cbn in Hf.
    destruct (next_index max_size (write_index_ q) =? read_index_ q) eqn:E.
    + exists g, l. split; cbn; try assumption. trivial.
    + exists g, l. split; cbn; try assumption.
      split; [reflexivity|]. split; [reflexivity|].
      pose proof (holds_length _ _ _ Hh).
      destruct (Z.eq_dec (Z.of_nat (length l)) (max_size - 1)) as [E'|E']; [|lia].
      apply Hf in E'. congruence.
  - exists g, l. unfold after; cbn. cbn in Hb, Hp.
    split; cbn; try assumption.
    rewrite Hb. reflexivity.
  - cbn in Hp. destruct Hp as (-> & -> & Hn). cbn in Hb.
    destruct (holds_push max_size max_size_pos max_size_size_t _ l t' Hh Hn) as [E H1].
    rewrite E in H1. unfold after in H1. cbn in H1.
    exists (<[Z.to_nat (write_index_ q) := Some t']> g), (l ++ [t']).
    unfold after; cbn. split; cbn.
    + exact H1.
    + rewrite Hb. destruct c as [|c' w0|c' r|got r|got r]; cbn; try reflexivity.
      cbn in Hc. destruct Hc as (-> & v & l' & -> & _).
      apply list_insert_insert_ne.
      apply (holds_indices_apart _ _ Hh). discriminate.
    + rewrite Hs. rewrite <- app_assoc. reflexivity.
    + trivial.
    + apply (consumer_ok_push c q l t' _ Hc).
Qed.

Lemma producer_ok_pop p q l v r :
  producer_ok max_size p q (v :: l) ->
  producer_ok max_size p
    (mk_ringbuffer_base (write_index_ q) r (pending_pop_read_index q) (buffer q)) l.
Proof.
  destruct p as [|t' w|t' w next|t' w next]; cbn; try tauto.
  - intros (E & E' & Hn). repeat split; try assumption. lia.
  - intros (E & E' & Hn). repeat split; try assumption. lia.
Qed.

Lemma consumer_step_inv c0 cfg g l :
  threads_inv max_size cfg g l ->
  exists g' l', threads_inv max_size (consumer_step max_size c0 cfg) g' l'.
Proof.
  intros [Hh Hb Hs Hp Hc]. destruct cfg as [q p c h]. cbn in Hh, Hb, Hs, Hp, Hc.
  pose proof (holds_read _ _ _ Hh) as Hr. cbn in Hr.
  pose proof (holds_length _ _ _ Hh) as Hn.
  destruct c as [|c' w0|c' r|got r|got r]; cbn [consumer_step prod shared cons seen].
  - exists g, l. unfold result; cbn. split; cbn; try assumption.
    exists (length l). split; [lia|]. exact (holds_write _ _ _ Hh).
  - unfold result, empty2; cbn. cbn in Hc. destruct Hc as (n & Hnl & ->).
    destruct (Z.eqb_spec ((read_index_ q + Z.of_nat n) mod max_size) (read_index_ q)) as [E|E].
    + exists g, l. split; cbn; try assumption. trivial.
    + exists g, l. split; cbn; try assumption.
      split; [reflexivity|]. intros ->. cbn in Hnl.
      assert (n = 0%nat) by lia. subst n. apply E.
      rewrite Z.add_0_r. apply Z.mod_small. lia.
  - cbn in Hc. destruct Hc as [-> Hl]. destruct l as [|v l']; [congruence|].
    exists g, (v :: l'). split; cbn; try assumption.
    split; [reflexivity|]. exists v, l'. split; [reflexivity|].
    assert (Hslot : slot_at (buffer q) (read_index_ q) = Some v).
    { rewrite Hb. cbn.
      pose proof (holds_pop_slot max_size max_size_pos _ _ _ Hh) as Hv. cbn in Hv.
      destruct p as [|t' w|t' w next|t' w next]; cbn; try exact Hv.
      cbn in Hp. destruct Hp as (-> & _ & _).
      pose proof (holds_indices_apart _ _ Hh ltac:(discriminate)) as Hne. cbn in Hne.
      unfold slot_at. rewrite list_lookup_insert_ne by lia. exact Hv. }
    destruct c' as [ret|]; unfold result; cbn; rewrite Hslot; reflexivity.
  - cbn in Hc. destruct Hc as (-> & v & l' & -> & ->).
    exists g, (v :: l'). unfold after; cbn. split; cbn; try assumption.
    + rewrite Hb. cbn.
      destruct p as [|t' w|t' w next|t' w next]; cbn; try reflexivity.
      cbn in Hp. destruct Hp as (-> & _ & _).
      pose proof (holds_indices_apart _ _ Hh ltac:(discriminate)) as Hne. cbn in Hne.
      apply list_insert_insert_ne. lia.
    + split; [reflexivity|]. exists v, l'. split; reflexivity.
  - cbn in Hc. destruct Hc as (-> & v & l' & -> & ->).
    pose proof (holds_advance max_size max_size_pos max_size_size_t _ v l' Hh) as H1.
    cbn in H1.
    exists (<[Z.to_nat (read_index_ q) := None]> g), l'.
    unfold after; cbn. split; cbn.
    + exact H1.
    + exact Hb.
    + rewrite Hs. rewrite <- app_assoc. reflexivity.
    + apply (producer_ok_pop p q l' v _ Hp).
    + trivial.
Qed.

Lemma run_turns_inv ss cfg g l :
  threads_inv max_size cfg g l ->
  exists g' l', threads_inv max_size (run_turns max_size ss cfg) g' l'.
Proof.
  revert cfg g l. induction ss as [|s ss IH]; intros cfg g l H.
  - exists g, l. exact H.
  - cbn [run_turns fold_left]. destruct s as [t|c]; cbn [turn_step].
    + destruct (producer_step_inv t cfg g l H) as (g1 & l1 & H1).
      exact (IH _ g1 l1 H1).
    + destruct (consumer_step_inv c cfg g l H) as (g1 & l1 & H1).
      exact (IH _ g1 l1 H1).
Qed.

Lemma start_config_inv :
  threads_inv max_size (@start_config T max_size)
    (replicate (Z.to_nat max_size) None) [].
Proof.
  split; cbn; try trivial.
  apply (holds_ctor max_size max_size_pos).
Qed.
End thread_facts.

(** However the statements of the producer's [push] calls and of the
    consumer's [pop] and [consume_one] calls are interleaved, the values
    handed out so far are the first of the values pushed so far, in the
    same order; and whenever both threads are between calls, the rest is
    what the ring holds. *)
Theorem fifo_order_interleaved {T : Type} (max_size : Z) (ss : list (@turn T)) :
  0 < max_size -> max_size < size_t.modulus ->
  let cfg := run_turns max_size ss (start_config max_size) in
  exists l,
    pushed (seen cfg) = popped (seen cfg) ++ l
    /\ (prod cfg = PIdle -> cons cfg = CIdle ->
        l = contents max_size (shared cfg)).
Proof.
  intros Hpos Hmax cfg.
  destruct (run_turns_inv max_size Hpos Hmax ss _ _ _
              (start_config_inv max_size Hpos)) as (g & l & [Hh Hb Hs Hp Hc]).
  fold cfg in Hh, Hb, Hs, Hp, Hc.
  exists l. split; [exact Hs|].
  intros Ep Ec. rewrite Ep, Ec in Hb. cbn in Hb.
  symmetry. apply (contents_holds max_size Hpos Hmax).
  destruct (shared cfg) as [w r pnd b]. cbn in *. subst b. exact Hh.
Qed.

(** One producer and one consumer, each in the middle of a call when the
    other runs. *)
Lemma fifo_order_interleaved_witness :
  let cfg := run_turns 3
    [ProducerTurn 1; ConsumerTurn (PopCall 0); ProducerTurn 1; ProducerTurn 1;
     ConsumerTurn (PopCall 0); ProducerTurn 1;
     ConsumerTurn ConsumeOneCall; ProducerTurn 2; ConsumerTurn ConsumeOneCall;
     ProducerTurn 2; ConsumerTurn ConsumeOneCall; ProducerTurn 2;
     ConsumerTurn ConsumeOneCall; ConsumerTurn ConsumeOneCall; ProducerTurn 2]
    (start_config 3) in
  (exists l,
     pushed (seen cfg) = popped (seen cfg) ++ l
     /\ (prod cfg = PIdle -> cons cfg = CIdle -> l = contents 3 (shared cfg)))
  /\ pushed (seen cfg) = [1; 2] /\ popped (seen cfg) = [1].
Proof.
  split.
  - apply (fifo_order_interleaved 3); [lia | reflexivity].
  - split; reflexivity.
Defined.

(** ** The statements of a thread, run without interruption *)

Section uninterrupted.
Context {T : Type}.
Variable max_size : Z.
Implicit Types (cfg : @config T) (q : ringbuffer_base T) (h : @history T).

Lemma producer_step_idle t q c h :
  producer_step max_size t (mk_config q PIdle c h)
  = mk_config q (PLoaded t (write_index_ q)) c h.
Proof. reflexivity. Qed.

Lemma producer_step_loaded t t' w q c h :
  producer_step max_size t (mk_config q (PLoaded t' w) c h)
  = if next_index max_size w =? read_index_ q
    then mk_config q PIdle c h
    else mk_config q (PRoom t' w (next_index max_size w)) c h.
Proof. reflexivity. Qed.

Lemma producer_step_room t t' w next q c h :
  producer_step max_size t (mk_config q (PRoom t' w next) c h)
  = mk_config
      (mk_ringbuffer_base (write_index_ q) (read_index_ q) (pending_pop_read_index q)
         (<[Z.to_nat w := Some t']> (buffer q)))
      (PConstructed t' w next) c h.
Proof. reflexivity. Qed.

Lemma producer_step_constructed t t' w next q c h :
  producer_step max_size t (mk_config q (PConstructed t' w next) c h)
  = mk_config
      (mk_ringbuffer_base next (read_index_ q) (pending_pop_read_index q) (buffer q))
      PIdle c (mk_history (pushed h ++ [t']) (popped h)).
Proof. reflexivity. Qed.

(** The statements of the producer, run in a row, are [push]. *)
Lemma producer_steps_push t cfg :
  prod cfg = PIdle ->
  let r := push max_size t (shared cfg) in
  let cfg2 := producer_step max_size t (producer_step max_size t cfg) in
  let cfg' :=
    if result r
    then producer_step max_size t (producer_step max_size t cfg2)
    else cfg2 in
  shared cfg' = after r
  /\ prod cfg' = PIdle
  /\ cons cfg' = cons cfg
  /\ seen cfg' = (step max_size (CallPush t) (shared cfg, seen cfg)).2.
Proof.
  destruct cfg as [q p c h]. cbn [prod shared cons seen]. intros ->.
  cbv zeta. cbn [step snd]. rewrite push_eq.
  rewrite producer_step_idle, producer_step_loaded.
  destruct (next_index max_size (write_index_ q) =? read_index_ q);
    unfold result, after; cbn [fst snd].
  - destruct h; repeat split.
  - rewrite producer_step_room, producer_step_constructed. repeat split.
Qed.

Lemma consumer_step_idle c0 q p h :
  consumer_step max_size c0 (mk_config q p CIdle h)
  = mk_config q p (CLoaded c0 (write_index_ q)) h.
Proof. reflexivity. Qed.

Lemma consumer_step_loaded c0 c w q p h :
  consumer_step max_size c0 (mk_config q p (CLoaded c w) h)
  = if w =? read_index_ q
    then mk_config q p CIdle h
    else mk_config q p (CNonEmpty c (read_index_ q)) h.
Proof. reflexivity. Qed.

Lemma consumer_step_nonempty_pop c0 ret r q p h :
  consumer_step max_size c0 (mk_config q p (CNonEmpty (PopCall ret) r) h)
  = mk_config q p (CCopied (Some (default ret (slot_at (buffer q) r))) r) h.
Proof. reflexivity. Qed.

Lemma consumer_step_copied c0 got r q p h :
  consumer_step max_size c0 (mk_config q p (CCopied got r) h)
  = mk_config
      (mk_ringbuffer_base (write_index_ q) (read_index_ q) (pending_pop_read_index q)
         (<[Z.to_nat r := None]> (buffer q)))
      p (CDestroyed got r) h.
Proof. reflexivity. Qed.

Lemma consumer_step_destroyed c0 got r q p h :
  consumer_step max_size c0 (mk_config q p (CDestroyed got r) h)
  = mk_config
      (mk_ringbuffer_base (write_index_ q) (next_index max_size r)
         (pending_pop_read_index q) (buffer q))
      p CIdle (mk_history (pushed h) (popped h ++ option_list got)).
Proof. reflexivity. Qed.

(** The statements of the consumer, run in a row, are [pop(ret)]. *)
Lemma consumer_steps_pop ret cfg :
  cons cfg = CIdle ->
  let r := pop max_size ret (shared cfg) in
  let c := PopCall ret in
  let cfg2 := consumer_step max_size c (consumer_step max_size c cfg) in
  let cfg' :=
    if (result r).1
    then consumer_step max_size c (consumer_step max_size c
           (consumer_step max_size c cfg2))
    else cfg2 in
  shared cfg' = after r
  /\ cons cfg' = CIdle
  /\ prod cfg' = prod cfg
  /\ seen cfg' = (step max_size (CallPop ret) (shared cfg, seen cfg)).2.
Proof.
  destruct cfg as [q p c h]. cbn [prod shared cons seen]. intros ->.
  cbv zeta. cbn [step snd]. rewrite pop_eq.
  rewrite consumer_step_idle, consumer_step_loaded.
  destruct (write_index_ q =? read_index_ q);
    unfold result, after; cbn [fst snd].
  - destruct h; repeat split.
  - rewrite consumer_step_nonempty_pop, consumer_step_copied, consumer_step_destroyed.
    repeat split.
Qed.
End uninterrupted.

(** ** The code on small inputs *)

Example next_index_inside_and_at_the_end :
  next_index 5 2 = 3 /\ next_index 5 4 = 0 /\ next_index 1 0 = 0.
Proof. repeat split. Qed.

(** The addition is an addition of [size_t]: it wraps before the
    remainder is taken. *)
Example next_index_of_the_largest_size_t :
  next_index 5 (size_t.modulus - 1) = 0.
Proof. reflexivity. Qed.

Example size_of_a_wrapped_ring :
  result (size 4 (mk_ringbuffer_base 1 3 0 [Some 5; None; None; Some 4]
                  : ringbuffer_base Z)) = 2.
Proof. reflexivity. Qed.

(** After [reset()] on a ring that holds two elements the ring reports
    empty while two slots still hold an object. *)
Example reset_of_a_ring_that_holds_two :
  let q : ringbuffer_base Z := after (push_each 4 [7; 8] (ringbuffer_base_ctor 4).1) in
  let q' := after (reset q) in
  result (empty q') = true
  /\ result (size 4 q') = 0
  /\ occupied_slots q' = 2%nat
  /\ buffer q' = [Some 7; Some 8; None; None].
Proof. repeat split. Qed.

(** [front()] hands out the oldest element of a ring that holds some. *)
Example front_of_a_ring_that_holds_two :
  let q : ringbuffer_base Z := after (push_each 4 [7; 8] (ringbuffer_base_ctor 4).1) in
  slot_at (buffer (after (front q))) (result (front q)) = Some 7
  /\ contents 4 (after (pop0 4 (after (front q)))) = [8].
Proof. repeat split. Qed.

(** * Further properties of the code *)

(** ** [next_index], repeated *)

Section advance_facts.
Variable max_size : Z.
Hypothesis max_size_pos : 0 < max_size.
Hypothesis max_size_size_t : max_size < size_t.modulus.

Lemma iter_next_index (k : nat) (i : Z) :
  0 <= i < max_size ->
  Nat.iter k (next_index max_size) i = (i + Z.of_nat k) mod max_size.
Proof.
  intros Hi. induction k as [|k IH].
  - cbn. rewrite Z.add_0_r. symmetry. apply Z.mod_small. exact Hi.
  - rewrite Nat.iter_succ, IH.
    rewrite next_index_spec by (try apply Z.mod_pos_bound; lia).
    rewrite Z.add_mod_idemp_l by lia. f_equal. lia.
Qed.

Lemma indices_from_app (i : Z) (a b : nat) :
  indices_from max_size i (a + b)
  = indices_from max_size i a
    ++ indices_from max_size (Nat.iter a (next_index max_size) i) b.
Proof.
  revert i. induction a as [|a IH]; intros i.
  - reflexivity.
  - cbn [Nat.add indices_from app]. f_equal. rewrite IH.
    rewrite Nat.iter_succ_r. reflexivity.
Qed.
End advance_facts.

(** [next_index] taken [k] times from an index of the block adds [k]
    modulo [max_size]: taken [max_size] times it is back where it
    started, and it never sends two indices of the block to the same
    one. *)
Theorem next_index_iterated (max_size i : Z) (k : nat) :
  0 < max_size -> max_size < size_t.modulus -> 0 <= i < max_size ->
  Nat.iter k (next_index max_size) i = (i + Z.of_nat k) mod max_size
  /\ Nat.iter (Z.to_nat max_size) (next_index max_size) i = i
  /\ (forall j, 0 <= j < max_size ->
        next_index max_size i = next_index max_size j -> i = j).
Proof.
  intros Hpos Hmax Hi. split; [apply iter_next_index; assumption|]. split.
  - rewrite iter_next_index by assumption. rewrite Z2Nat.id by lia.
    rewrite <- (Z.mul_1_l max_size) at 1. rewrite Z_mod_plus_full.
    apply Z.mod_small. exact Hi.
  - intros j Hj. rewrite !next_index_cases by assumption.
    destruct (Z.ltb_spec (i + 1) max_size); destruct (Z.ltb_spec (j + 1) max_size); lia.
Qed.

Lemma next_index_iterated_witness :
  Nat.iter 4 (next_index 5) 3 = (3 + Z.of_nat 4) mod 5
  /\ Nat.iter (Z.to_nat 5) (next_index 5) 3 = 3
  /\ (forall j, 0 <= j < 5 -> next_index 5 3 = next_index 5 j -> 3 = j).
Proof.
  apply (next_index_iterated 5 3 4); [lia | reflexivity | lia].
Defined.

(** ** The ring after any sequence of calls *)

Section reachable_facts.
Context {T : Type}.
Variable max_size : Z.
Hypothesis max_size_pos : 0 < max_size.
Hypothesis max_size_size_t : max_size < size_t.modulus.

Lemma run_start_holds (cs : list (@call T)) :
  exists l,
    holds max_size (run max_size cs (start max_size)).1 l
    /\ pushed (run max_size cs (start max_size)).2
       = popped (run max_size cs (start max_size)).2 ++ l.
Proof.
  apply (run_holds max_size max_size_pos max_size_size_t cs _ _ []).
  - apply holds_ctor. exact max_size_pos.
  - reflexivity.
Qed.

(** [holds] does not look at the pending index. *)
Lemma holds_pending (q : ringbuffer_base T) (l : list T) (p : Z) :
  holds max_size q l ->
  holds max_size
    (mk_ringbuffer_base (write_index_ q) (read_index_ q) p (buffer q)) l.
Proof. intros [H1 H2 H3 H4 H5]. split; assumption. Qed.
End reachable_facts.

(** After any sequence of calls on a fresh ring the invariant of the
    data model holds, and [size()] is the number of successful pushes
    less the number of successful pops; it is at most [max_size - 1] and
    is the number of slots that hold an object. *)
Theorem calls_keep_the_invariant {T : Type} (max_size : Z) (cs : list (@call T)) :
  0 < max_size -> max_size < size_t.modulus ->
  let s := run max_size cs (start max_size) in
  ring_inv max_size s.1
  /\ result (size max_size s.1)
     = Z.of_nat (length (pushed s.2)) - Z.of_nat (length (popped s.2))
  /\ 0 <= result (size max_size s.1) <= max_size - 1
  /\ Z.of_nat (occupied_slots s.1) = result (size max_size s.1).
Proof.
  intros Hpos Hmax s.
  destruct (run_start_holds max_size Hpos Hmax cs) as (l & H & Hh).
  fold s in H, Hh.
  pose proof (holds_ring_inv max_size Hpos _ _ H) as Hinv.
  pose proof (size_holds max_size Hpos Hmax _ _ H) as Hs.
  pose proof (holds_length _ _ _ H) as Hl.
  split; [exact Hinv|]. split; [|split].
  - rewrite Hs, Hh, length_app. lia.
  - rewrite Hs. lia.
  - apply (occupied_slots_size max_size Hpos Hmax). exact Hinv.
Qed.

Lemma calls_keep_the_invariant_witness :
  let s := run 3 [CallPush 1; CallPush 2; CallPush 3; CallPop 0; CallPush 4;
                  CallConsumeOne; CallPush 5; CallPop 0; CallPop 0; CallPush 6]
             (start 3) in
  (ring_inv 3 s.1
   /\ result (size 3 s.1)
      = Z.of_nat (length (pushed s.2)) - Z.of_nat (length (popped s.2))
   /\ 0 <= result (size 3 s.1) <= 3 - 1
   /\ Z.of_nat (occupied_slots s.1) = result (size 3 s.1))
  /\ pushed s.2 = [1; 2; 4; 5; 6] /\ popped s.2 = [1; 2; 4; 5].
Proof.
  split.
  - apply (calls_keep_the_invariant 3); [lia | reflexivity].
  - split; reflexivity.
Defined.

(** On the ring any sequence of calls leaves, [push] and [pop] are the
    operations of a bounded queue on [contents]: [push] appends its
    value when fewer than [max_size - 1] elements are held and otherwise
    returns [false] and changes nothing; [pop] hands out and removes the
    oldest element when there is one and otherwise returns [false] and
    changes nothing. *)
Theorem push_and_pop_on_contents {T : Type} (max_size : Z)
    (cs : list (@call T)) (t ret : T) :
  0 < max_size -> max_size < size_t.modulus ->
  let q := (run max_size cs (start max_size)).1 in
  (if Z.of_nat (length (contents max_size q)) <? max_size - 1
   then result (push max_size t q) = true
        /\ contents max_size (after (push max_size t q))
           = contents max_size q ++ [t]
   else push max_size t q = (false, q, []))
  /\ match contents max_size q with
     | [] => pop max_size ret q = (false, ret, q, [])
     | v :: l =>
         result (pop max_size ret q) = (true, v)
         /\ contents max_size (after (pop max_size ret q)) = l
     end.
Proof.
  intros Hpos Hmax q.
  destruct (run_start_holds max_size Hpos Hmax cs) as (l & H & _).
  fold q in H.
  rewrite (contents_holds max_size Hpos Hmax _ _ H). split.
  - destruct (Z.ltb_spec (Z.of_nat (length l)) (max_size - 1)) as [Hn|Hn].
    + destruct (holds_push max_size Hpos Hmax q l t H Hn) as [E H1].
      split; [rewrite E; reflexivity|].
      apply (contents_holds max_size Hpos Hmax _ _ H1).
    + rewrite push_eq.
      rewrite (proj2 (holds_full_iff max_size Hpos Hmax _ _ H)); [reflexivity|].
      pose proof (holds_length _ _ _ H). lia.
  - destruct l as [|v l].
    + rewrite pop_eq.
      rewrite (proj2 (holds_empty_iff max_size Hpos _ _ H) eq_refl). reflexivity.
    + destruct (holds_pop max_size Hpos Hmax q v l ret H) as [E H1].
      split; [rewrite E; reflexivity|].
      apply (contents_holds max_size Hpos Hmax _ _ H1).
Qed.

Lemma push_and_pop_on_contents_witness :
  let q : ringbuffer_base Z :=
    (run 4 [CallPush 1; CallPush 2; CallPop 0; CallPush 3] (start 4)).1 in
  contents 4 q = [2; 3]
  /\ result (push 4 9 q) = true
  /\ contents 4 (after (push 4 9 q)) = [2; 3; 9]
  /\ result (pop 4 0 q) = (true, 2)
  /\ contents 4 (after (pop 4 0 q)) = [3].
Proof.
  intros q.
  pose proof (push_and_pop_on_contents 4
                [CallPush 1; CallPush 2; CallPop 0; CallPush 3] 9 0
                ltac:(lia) ltac:(reflexivity)) as H.
  cbv zeta in H. fold q in H.
  assert (E : contents 4 q = [2; 3]) by reflexivity.
  rewrite E in H. destruct H as [[H1 H2] [H3 H4]].
  exact (conj E (conj H1 (conj H2 (conj H3 H4)))).
Defined.

(** ** [consume_one] and [pop(ret)] *)

(** [consume_one] is [pop(ret)] with a call of the functor in place of
    the copy: on every object the two return the same flag, leave the
    same object behind and run the destructor on the same slot; and when
    the slot at the read index holds an object, the functor is called on
    the very value that [pop(ret)] copies out. *)
Theorem consume_one_is_pop {T F : Type} (max_size : Z) (q : ringbuffer_base T)
    (f : T -> F -> F) (fs : F) (ret : T) :
  (result (consume_one max_size f fs q)).1 = (result (pop max_size ret q)).1
  /\ after (consume_one max_size f fs q) = after (pop max_size ret q)
  /\ destroyed (events (consume_one max_size f fs q))
     = destroyed (events (pop max_size ret q))
  /\ (forall v, write_index_ q <> read_index_ q ->
        slot_at (buffer q) (read_index_ q) = Some v ->
        (result (pop max_size ret q)).2 = v
        /\ (result (consume_one max_size f fs q)).2 = f v fs).
Proof.
  rewrite consume_one_eq, pop_eq.
  destruct (Z.eqb_spec (write_index_ q) (read_index_ q)) as [E|E];
    unfold result, after, events; cbn.
  - repeat split; intros; congruence.
  - split; [reflexivity|]. split; [reflexivity|]. split; [reflexivity|].
    intros v _ Hv. rewrite Hv. split; reflexivity.
Qed.

(** ** [empty()], [size()] and the two failures *)

(** With both indices inside the block, the ring is empty exactly when
    [size()] is 0 and full exactly when [size()] is [max_size - 1]:
    [empty()] and a failing [pop] mean the first, a failing [push] the
    second. *)
Theorem empty_and_full_by_size {T : Type} (max_size : Z)
    (q : ringbuffer_base T) (t ret : T) :
  0 < max_size -> max_size < size_t.modulus ->
  0 <= read_index_ q < max_size -> 0 <= write_index_ q < max_size ->
  (result (empty q) = true <-> result (size max_size q) = 0)
  /\ ((result (pop max_size ret q)).1 = false <-> result (size max_size q) = 0)
  /\ (result (push max_size t q) = false
      <-> result (size max_size q) = max_size - 1).
Proof.
  intros Hpos Hmax Hr Hw.
  rewrite (size_cases max_size Hmax q Hr Hw).
  rewrite empty_eq, pop_eq, push_eq.
  rewrite (next_index_cases max_size Hpos Hmax _ Hw).
  unfold result.
  destruct (Z.gtb_spec (read_index_ q) (write_index_ q));
    destruct (Z.ltb_spec (write_index_ q + 1) max_size);
    destruct (Z.eqb_spec (write_index_ q) (read_index_ q));
    repeat match goal with
           | |- context [?a =? ?b] => destruct (Z.eqb_spec a b)
           end; cbn; repeat split; intros; try congruence; try lia.
Qed.

Lemma empty_and_full_by_size_witness :
  let q : ringbuffer_base Z :=
    mk_ringbuffer_base 1 2 0 [Some 6; None; Some 4; Some 5] in
  (result (empty q) = true <-> result (size 4 q) = 0)
  /\ ((result (pop 4 0 q)).1 = false <-> result (size 4 q) = 0)
  /\ (result (push 4 7 q) = false <-> result (size 4 q) = 4 - 1).
Proof.
  intros q. apply (empty_and_full_by_size 4 q 7 0); cbn; try lia. reflexivity.
Defined.

(** ** [reset()] after calls *)

(** [reset()] on the ring any sequence of calls leaves makes it report
    empty and size 0 without an event, while as many slots as [size()]
    reported before still hold their object; the result satisfies the
    invariant of the data model exactly when the ring held nothing. *)
Theorem reset_forgets_without_destroying {T : Type} (max_size : Z)
    (cs : list (@call T)) :
  0 < max_size -> max_size < size_t.modulus ->
  let q := (run max_size cs (start max_size)).1 in
  let q' := after (reset q) in
  result (empty q') = true
  /\ result (size max_size q') = 0
  /\ events (reset q) = []
  /\ Z.of_nat (occupied_slots q') = result (size max_size q)
  /\ (ring_inv max_size q' <-> contents max_size q = []).
Proof.
  intros Hpos Hmax q q'.
  destruct (run_start_holds max_size Hpos Hmax cs) as (l & H & _).
  fold q in H.
  assert (Eq' : q' = mk_ringbuffer_base 0 0 (pending_pop_read_index q) (buffer q)).
  { subst q'. rewrite reset_eq. reflexivity. }
  assert (Hocc : Z.of_nat (occupied_slots q') = result (size max_size q)).
  { rewrite Eq'. unfold occupied_slots; cbn [buffer].
    apply (occupied_slots_size max_size Hpos Hmax).
    exact (holds_ring_inv max_size Hpos _ _ H). }
  assert (Hsz : result (size max_size q') = 0).
  { rewrite Eq', size_eq. reflexivity. }
  split; [rewrite Eq'; reflexivity|]. split; [exact Hsz|].
  split; [rewrite reset_eq; reflexivity|]. split; [exact Hocc|].
  rewrite (contents_holds max_size Hpos Hmax _ _ H).
  pose proof (size_holds max_size Hpos Hmax _ _ H) as Hs.
  split.
  - intros Hinv.
    pose proof (occupied_slots_size max_size Hpos Hmax _ Hinv) as Ho.
    destruct l; [reflexivity|]. cbn [length] in Hs. lia.
  - intros ->. apply (holds_ring_inv max_size Hpos _ []).
    rewrite Eq'. split; cbn.
    + lia.
    + lia.
    + rewrite Z.add_0_r. symmetry. apply Z.mod_small. lia.
    + exact (holds_buffer _ _ _ H).
    + intros i Hi. rewrite (holds_slots _ _ _ H) by exact Hi.
      rewrite !lookup_nil. reflexivity.
Qed.

Lemma reset_forgets_without_destroying_witness :
  let q : ringbuffer_base Z :=
    (run 4 [CallPush 1; CallPush 2; CallPop 0; CallPush 3] (start 4)).1 in
  let q' := after (reset q) in
  (result (empty q') = true
   /\ result (size 4 q') = 0
   /\ events (reset q) = []
   /\ Z.of_nat (occupied_slots q') = result (size 4 q)
   /\ (ring_inv 4 q' <-> contents 4 q = []))
  /\ occupied_slots q' = 2%nat.
Proof.
  split.
  - apply (reset_forgets_without_destroying 4); [lia | reflexivity].
  - reflexivity.
Defined.

(** ** [front()] and [pop()] after calls *)

(** On the ring any sequence of calls leaves, if it holds an element,
    [front()] returns the slot of the oldest one and leaves the elements
    as they are, and [pop()] after it runs one destructor, on that slot,
    and removes that element; the invariant of the data model holds
    afterwards. *)
Theorem front_then_pop0_on_contents {T : Type} (max_size : Z)
    (cs : list (@call T)) (v : T) (l : list T) :
  0 < max_size -> max_size < size_t.modulus ->
  let q := (run max_size cs (start max_size)).1 in
  contents max_size q = v :: l ->
  slot_at (buffer (after (front q))) (result (front q)) = Some v
  /\ contents max_size (after (front q)) = v :: l
  /\ events (front q) = []
  /\ events (pop0 max_size (after (front q))) = [Dtor (read_index_ q)]
  /\ contents max_size (after (pop0 max_size (after (front q)))) = l
  /\ ring_inv max_size (after (pop0 max_size (after (front q)))).
Proof.
  intros Hpos Hmax q Hc.
  destruct (run_start_holds max_size Hpos Hmax cs) as (l0 & H & _).
  fold q in H.
  rewrite (contents_holds max_size Hpos Hmax _ _ H) in Hc. subst l0.
  pose proof (holds_pending max_size q (v :: l) (read_index_ q) H) as Hf.
  pose proof (holds_advance max_size Hpos Hmax _ v l Hf) as Ha.
  cbn [write_index_ read_index_ pending_pop_read_index buffer] in Ha.
  rewrite front_eq. unfold result, after, events. cbn [fst snd].
  rewrite pop0_eq. cbn [fst snd write_index_ read_index_ pending_pop_read_index buffer].
  split; [exact (holds_pop_slot max_size Hpos _ _ _ H)|].
  split; [exact (contents_holds max_size Hpos Hmax _ _ Hf)|].
  split; [reflexivity|]. split; [reflexivity|].
  split; [exact (contents_holds max_size Hpos Hmax _ _ Ha)|].
  exact (holds_ring_inv max_size Hpos _ _ Ha).
Qed.

Lemma front_then_pop0_on_contents_witness :
  let q : ringbuffer_base Z :=
    (run 4 [CallPush 1; CallPush 2; CallPop 0; CallPush 3] (start 4)).1 in
  slot_at (buffer (after (front q))) (result (front q)) = Some 2
  /\ contents 4 (after (front q)) = [2; 3]
  /\ events (front q) = []
  /\ events (pop0 4 (after (front q))) = [Dtor (read_index_ q)]
  /\ contents 4 (after (pop0 4 (after (front q)))) = [3]
  /\ ring_inv 4 (after (pop0 4 (after (front q)))).
Proof.
  apply (front_then_pop0_on_contents 4
           [CallPush 1; CallPush 2; CallPop 0; CallPush 3] 2 [3]);
    [lia | reflexivity | reflexivity].
Defined.

(** [pop()] does not move the pending index: a second [pop()] without a
    [front()] in between runs the destructor on the same slot again and
    stores the same read index, so the object is as after the first. *)
Theorem pop0_twice {T : Type} (max_size : Z) (q : ringbuffer_base T) :
  after (pop0 max_size (after (pop0 max_size q))) = after (pop0 max_size q)
  /\ events (pop0 max_size (after (pop0 max_size q)))
     = [Dtor (pending_pop_read_index q)]
  /\ events (pop0 max_size q) = [Dtor (pending_pop_read_index q)].
Proof.
  rewrite !pop0_eq. unfold after, events. cbn.
  rewrite list_insert_insert_eq. repeat split.
Qed.

(** ** A block of one slot *)


(** ** The objects of a whole life *)

Section lifetime_facts.
Context {T : Type}.
Variable max_size : Z.
Hypothesis max_size_pos : 0 < max_size.
Hypothesis max_size_size_t : max_size < size_t.modulus.
Implicit Types (q : ringbuffer_base T) (l : list T) (h : @history T).

Lemma constructed_drained slots : constructed (drained slots) = [].
Proof.
  unfold drained. induction slots as [|i slots IH]; [reflexivity|]. exact IH.
Qed.

Lemma run_cons c cs (s : ringbuffer_base T * history) :
  run max_size (c :: cs) s = run max_size cs (step max_size c s).
Proof. reflexivity. Qed.

(** The calls construct into the slots from the write index on and run
    the destructor on the slots from the read index on, one slot for
    each successful [push] and one for each successful [pop] or
    [consume_one]. *)
Lemma trace_holds cs q h l :
  holds max_size q l -> pushed h = popped h ++ l ->
  exists np nc : nat,
    length (pushed (run max_size cs (q, h)).2) = (length (pushed h) + np)%nat
    /\ length (popped (run max_size cs (q, h)).2) = (length (popped h) + nc)%nat
    /\ constructed (trace max_size cs (q, h))
       = indices_from max_size (write_index_ q) np
    /\ destroyed (trace max_size cs (q, h))
       = indices_from max_size (read_index_ q) nc
    /\ read_index_ (run max_size cs (q, h)).1
       = Nat.iter nc (next_index max_size) (read_index_ q).
Proof.
  revert q h l. induction cs as [|c cs IH]; intros q h l H Hh.
  - exists 0%nat, 0%nat. cbn. rewrite !Nat.add_0_r. repeat split.
  - rewrite run_cons. cbn [trace].
    destruct (step_holds max_size max_size_pos max_size_size_t c q h l H Hh)
      as (l1 & H1 & Hh1).
    unfold constructed, destroyed. rewrite !omap_app.
    fold (constructed (trace max_size cs (step max_size c (q, h)))).
    fold (destroyed (trace max_size cs (step max_size c (q, h)))).
    destruct c as [t|ret| | |]; cbn [step call_events] in *.
    + (* push *)
      rewrite push_eq in *.
      destruct (next_index max_size (write_index_ q) =? read_index_ q);
        unfold result, after, events in *; cbn [fst snd] in *.
      * destruct (IH q h l1 H1 Hh1) as (np & nc & E1 & E2 & E3 & E4 & E5).
        exists np, nc. cbn. repeat split; assumption.
      * destruct (IH _ _ l1 H1 Hh1) as (np & nc & E1 & E2 & E3 & E4 & E5).
        cbn [pushed popped write_index_ read_index_] in E1, E2, E3, E4, E5.
        exists (S np), nc. cbn [omap list_omap app indices_from].
        rewrite E1, E2, E3, E4, E5. rewrite length_app. cbn [length].
        repeat split; lia.
    + (* pop *)
      rewrite pop_eq in *.
      destruct (write_index_ q =? read_index_ q);
        unfold result, after, events in *; cbn [fst snd] in *.
      * destruct (IH q h l1 H1 Hh1) as (np & nc & E1 & E2 & E3 & E4 & E5).
        exists np, nc. cbn. repeat split; assumption.
      * destruct (IH _ _ l1 H1 Hh1) as (np & nc & E1 & E2 & E3 & E4 & E5).
        cbn [pushed popped write_index_ read_index_] in E1, E2, E3, E4, E5.
        exists np, (S nc). cbn [omap list_omap app indices_from].
        rewrite E1, E2, E3, E4, E5. rewrite length_app. cbn [length].
        rewrite Nat.iter_succ_r. repeat split; lia.
    + (* consume_one *)
      rewrite consume_one_eq in *.
      destruct (Z.eqb_spec (write_index_ q) (read_index_ q)) as [E|E];
        unfold result, after, events in *; cbn [fst snd] in *.
      * destruct (IH _ _ l1 H1 Hh1) as (np & nc & E1 & E2 & E3 & E4 & E5).
        cbn [pushed popped write_index_ read_index_] in E1, E2, E3, E4, E5.
        exists np, nc. cbn. repeat split; assumption.
      * destruct l as [|v l].
        { exfalso. apply E. apply Z.eqb_eq.
          apply (holds_empty_iff max_size max_size_pos _ _ H). reflexivity. }
        rewrite (holds_pop_slot max_size max_size_pos _ _ _ H) in *.
        cbn [from_option] in *. unfold record_value in *.
        destruct (IH _ _ l1 H1 Hh1) as (np & nc & E1 & E2 & E3 & E4 & E5).
        cbn [pushed popped write_index_ read_index_] in E1, E2, E3, E4, E5.
        exists np, (S nc). cbn [omap list_omap app indices_from].
        rewrite E1, E2, E3, E4, E5. rewrite length_app. cbn [length].
        rewrite Nat.iter_succ_r. repeat split; lia.
    + rewrite empty_eq in *. unfold after, events in *; cbn [fst snd] in *.
      destruct (IH q h l1 H1 Hh1) as (np & nc & E1 & E2 & E3 & E4 & E5).
      exists np, nc. cbn. repeat split; assumption.
    + rewrite size_eq in *. unfold after, events in *; cbn [fst snd] in *.
      destruct (IH q h l1 H1 Hh1) as (np & nc & E1 & E2 & E3 & E4 & E5).
      exists np, nc. cbn. repeat split; assumption.
Qed.
End lifetime_facts.

(** Over the whole life of a ring, from the constructor through any
    sequence of calls to the destructor, the destructor of [T] runs on
    exactly the slots the copy constructor of [T] ran on, in the same
    order and as often: once for each successful [push].  The
    destructor of the ring ends within [max_size] turns of its loop. *)
Theorem lifetime_destroys_what_it_constructs {T : Type} (max_size : Z)
    (cs : list (@call T)) (T_default : T) (fuel : nat) :
  0 < max_size -> max_size < size_t.modulus -> (Z.to_nat max_size <= fuel)%nat ->
  let s := run max_size cs (start max_size) in
  let es := lifetime max_size T_default fuel cs in
  result (ringbuffer_base_dtor max_size T_default fuel s.1) = Some tt
  /\ destroyed es = constructed es
  /\ constructed es = indices_from max_size 0 (length (pushed s.2)).
Proof.
  intros Hpos Hmax Hfuel s es. subst s es. unfold lifetime.
  destruct (run_start_holds max_size Hpos Hmax cs) as (l & H & Hh).
  destruct (trace_holds max_size Hpos Hmax cs
              (ringbuffer_base_ctor max_size).1 (mk_history [] []) []
              (holds_ctor max_size Hpos) eq_refl)
    as (np & nc & E1 & E2 & E3 & E4 & E5).
  change ((ringbuffer_base_ctor max_size).1, mk_history [] [])
    with (start (T:=T) max_size) in E1, E2, E3, E4, E5.
  cbn [pushed popped length Nat.add write_index_ read_index_
       ringbuffer_base_ctor fst] in E1, E2, E3, E4, E5.
  remember (run max_size cs (start max_size)) as s eqn:Es.
  assert (Hl : (length l < fuel)%nat).
  { pose proof (holds_length _ _ _ H). lia. }
  rewrite (dtor_holds max_size Hpos Hmax l s.1 T_default fuel H Hl).
  assert (Hnp : np = (nc + length l)%nat).
  { rewrite <- E1, <- E2, Hh, length_app. reflexivity. }
  unfold result, events. cbn [fst snd].
  unfold constructed, destroyed. rewrite !omap_app. cbn [omap list_omap app].
  rewrite !omap_app. cbn [omap list_omap app]. rewrite !app_nil_r.
  fold (constructed (trace max_size cs (start max_size))).
  fold (destroyed (trace max_size cs (start max_size))).
  fold (constructed (drained (indices_from max_size (read_index_ s.1) (length l)))).
  fold (destroyed (drained (indices_from max_size (read_index_ s.1) (length l)))).
  rewrite constructed_drained, destroyed_drained, app_nil_r.
  rewrite E3, E4, E5, E1, Hnp.
  split; [reflexivity|]. split; [|reflexivity].
  symmetry. apply indices_from_app.
Qed.

Lemma lifetime_destroys_what_it_constructs_witness :
  let cs := [CallPush 1; CallPush 2; CallPush 3; CallPop 0; CallPush 4;
             CallConsumeOne; CallPush 5] in
  let s := run 3 cs (start 3) in
  let es := lifetime 3 0 3 cs in
  (result (ringbuffer_base_dtor 3 0 3 s.1) = Some tt
   /\ destroyed es = constructed es
   /\ constructed es = indices_from 3 0 (length (pushed s.2)))
  /\ constructed es = [0; 1; 2; 0].
Proof.
  split.
  - apply (lifetime_destroys_what_it_constructs 3); [lia | reflexivity | cbn; lia].
  - reflexivity.
Defined.

(** ** What the interleaved statements touch *)

Section interleaving_facts.
Context {T : Type}.
Variable max_size : Z.
Hypothesis max_size_pos : 0 < max_size.
Hypothesis max_size_size_t : max_size < size_t.modulus.
Implicit Types (l : list T) (g : list (option T)) (cfg : @config T).

Lemma slot_at_insert_None g (i j : Z) :
  slot_at g j = None -> slot_at (<[Z.to_nat i := None]> g) j = None.
Proof.
  unfold slot_at. intros Hj.
  destruct (decide (Z.to_nat i = Z.to_nat j)) as [E|E].
  - rewrite E. destruct (decide (Z.to_nat j < length g)%nat) as [Hlt|Hge].
    + rewrite list_lookup_insert_eq by exact Hlt. reflexivity.
    + rewrite list_insert_ge by lia. exact Hj.
  - rewrite list_lookup_insert_ne by exact E. exact Hj.
Qed.

(** The slot the producer is about to construct into holds no object. *)
Lemma room_slot_is_raw cfg g l t w next :
  threads_inv max_size cfg g l -> prod cfg = PRoom t w next ->
  w = write_index_ (shared cfg) /\ slot_at (buffer (shared cfg)) w = None.
Proof.
  intros [Hh Hb Hs Hp Hc] Ep. rewrite Ep in Hb, Hp. cbn in Hb, Hp.
  destruct Hp as (-> & _ & Hn). split; [reflexivity|].
  pose proof (holds_write_bound max_size max_size_pos _ _ Hh) as Hw. cbn in Hw.
  assert (Hg : slot_at g (write_index_ (shared cfg)) = None).
  { pose proof (holds_slots _ _ _ Hh _ Hw) as E. cbn in E. rewrite E.
    pose proof (holds_write_offset max_size max_size_pos _ _ Hh) as Ho.
    cbn in Ho. rewrite Ho, Nat2Z.id. apply lookup_ge_None_2. lia. }
  rewrite Hb. destruct (cons cfg); cbn; try exact Hg.
  apply slot_at_insert_None. exact Hg.
Qed.

(** The slot the consumer is about to copy from or to destroy holds the
    oldest element. *)
Lemma consumer_slot_is_live cfg g l r :
  threads_inv max_size cfg g l ->
  (exists c, cons cfg = CNonEmpty c r) \/ (exists got, cons cfg = CCopied got r) ->
  r = read_index_ (shared cfg)
  /\ exists v l', l = v :: l' /\ slot_at (buffer (shared cfg)) r = Some v.
Proof.
  intros [Hh Hb Hs Hp Hc] Ec.
  assert (Hr : r = read_index_ (shared cfg) /\ l <> []
               /\ consumer_in_flight (cons cfg) g = g).
  { destruct Ec as [[c Ec]|[got Ec]]; rewrite Ec in Hc |- *; cbn in Hc |- *.
    - destruct Hc as [-> Hl]. repeat split; assumption.
    - destruct Hc as (-> & v & l' & -> & _). repeat split. discriminate. }
  destruct Hr as (-> & Hl & Eg). split; [reflexivity|].
  destruct l as [|v l']; [congruence|]. exists v, l'. split; [reflexivity|].
  pose proof (holds_pop_slot max_size max_size_pos _ _ _ Hh) as Hv. cbn in Hv.
  rewrite Hb, Eg.
  destruct (prod cfg) as [|t' w|t' w next|t' w next] eqn:Ep; cbn; try exact Hv.
  cbn in Hp. destruct Hp as (-> & _ & _).
  pose proof (holds_indices_apart max_size max_size_pos _ _ Hh ltac:(discriminate))
    as Hne. cbn in Hne.
  unfold slot_at. rewrite list_lookup_insert_ne by exact Hne. exact Hv.
Qed.
End interleaving_facts.

(** However the statements of the two threads are interleaved, the
    producer's placement new always finds a slot that holds no object,
    and the consumer's copy (or functor call) and destructor always
    find a slot that holds one: a live object is never overwritten and
    raw storage is never read or destroyed. *)
Theorem interleaving_touches_the_right_slots {T : Type} (max_size : Z)
    (ss : list (@turn T)) :
  0 < max_size -> max_size < size_t.modulus ->
  let cfg := run_turns max_size ss (start_config max_size) in
  (forall t w next, prod cfg = PRoom t w next ->
     w = write_index_ (shared cfg) /\ slot_at (buffer (shared cfg)) w = None)
  /\ (forall c r, cons cfg = CNonEmpty c r ->
        r = read_index_ (shared cfg)
        /\ is_Some (slot_at (buffer (shared cfg)) r))
  /\ (forall got r, cons cfg = CCopied got r ->
        r = read_index_ (shared cfg)
        /\ is_Some got
        /\ slot_at (buffer (shared cfg)) r = got).
Proof.
  intros Hpos Hmax cfg.
  destruct (run_turns_inv max_size Hpos Hmax ss _ _ _
              (start_config_inv max_size Hpos)) as (g & l & Hinv).
  fold cfg in Hinv. split; [|split].
  - intros t w next Ep. exact (room_slot_is_raw max_size Hpos cfg g l t w next Hinv Ep).
  - intros c r Ec.
    destruct (consumer_slot_is_live max_size Hpos cfg g l r Hinv)
      as (E & v & l' & _ & Hv); [left; exists c; exact Ec|].
    split; [exact E|]. rewrite Hv. eexists; reflexivity.
  - intros got r Ec.
    destruct (consumer_slot_is_live max_size Hpos cfg g l r Hinv)
      as (E & v & l' & El & Hv); [right; exists got; exact Ec|].
    destruct Hinv as [_ _ _ _ Hc]. rewrite Ec in Hc. cbn in Hc.
    destruct Hc as (_ & v' & l'' & El' & ->).
    rewrite El in El'. injection El' as -> _.
    split; [exact E|]. split; [eexists; reflexivity | exact Hv].
Qed.

Lemma interleaving_touches_the_right_slots_witness :
  let cfg := run_turns 3
    [ProducerTurn 1; ProducerTurn 1; ProducerTurn 1; ProducerTurn 1;
     ConsumerTurn ConsumeOneCall; ProducerTurn 2; ConsumerTurn ConsumeOneCall;
     ProducerTurn 2; ConsumerTurn ConsumeOneCall]
    (start_config 3) in
  prod cfg = PRoom 2 1 2
  /\ cons cfg = CCopied (Some 1) 0
  /\ slot_at (buffer (shared cfg)) 1 = None
  /\ slot_at (buffer (shared cfg)) 0 = Some 1.
Proof.
  intros cfg.
  destruct (interleaving_touches_the_right_slots 3
              [ProducerTurn 1; ProducerTurn 1; ProducerTurn 1; ProducerTurn 1;
               ConsumerTurn ConsumeOneCall; ProducerTurn 2; ConsumerTurn ConsumeOneCall;
               ProducerTurn 2; ConsumerTurn ConsumeOneCall]
              ltac:(lia) ltac:(reflexivity)) as (Hp & _ & Hc).
  fold cfg in Hp, Hc.
  assert (Ep : prod cfg = PRoom 2 1 2) by reflexivity.
  assert (Ec : cons cfg = CCopied (Some 1) 0) by reflexivity.
  destruct (Hp 2 1 2 Ep) as [_ H1]. destruct (Hc (Some 1) 0 Ec) as (_ & _ & H2).
  exact (conj Ep (conj Ec (conj H1 H2))).
Defined.

(** However the statements of the two threads are interleaved, both
    indices stay inside the block, so [size()] called at any moment
    returns a value from 0 to [max_size - 1]: the number of [push] calls
    that have returned [true] less the number of [pop] and [consume_one]
    calls that have handed out a value. *)
Theorem interleaving_size {T : Type} (max_size : Z) (ss : list (@turn T)) :
  0 < max_size -> max_size < size_t.modulus ->
  let cfg := run_turns max_size ss (start_config max_size) in
  0 <= read_index_ (shared cfg) < max_size
  /\ 0 <= write_index_ (shared cfg) < max_size
  /\ 0 <= result (size max_size (shared cfg)) <= max_size - 1
  /\ result (size max_size (shared cfg))
     = Z.of_nat (length (pushed (seen cfg))) - Z.of_nat (length (popped (seen cfg))).
Proof.
  intros Hpos Hmax cfg.
  destruct (run_turns_inv max_size Hpos Hmax ss _ _ _
              (start_config_inv max_size Hpos)) as (g & l & [Hh Hb Hs Hp Hc]).
  fold cfg in Hh, Hb, Hs, Hp, Hc.
  pose proof (holds_read _ _ _ Hh) as Hr. cbn in Hr.
  pose proof (holds_write_bound max_size Hpos _ _ Hh) as Hw. cbn in Hw.
  pose proof (holds_length _ _ _ Hh) as Hl.
  pose proof (size_holds max_size Hpos Hmax _ _ Hh) as Hsz.
  rewrite size_eq in Hsz. unfold result in Hsz. cbn in Hsz.
  rewrite size_eq. unfold result. cbn [fst].
  split; [exact Hr|]. split; [exact Hw|].
  rewrite Hsz, Hs, length_app. split; lia.
Qed.

Lemma interleaving_size_witness :
  let cfg := run_turns 3
    [ProducerTurn 1; ProducerTurn 1; ProducerTurn 1; ProducerTurn 1;
     ConsumerTurn ConsumeOneCall; ProducerTurn 2; ConsumerTurn ConsumeOneCall;
     ProducerTurn 2; ConsumerTurn ConsumeOneCall]
    (start_config 3) in
  (0 <= read_index_ (shared cfg) < 3
   /\ 0 <= write_index_ (shared cfg) < 3
   /\ 0 <= result (size 3 (shared cfg)) <= 3 - 1
   /\ result (size 3 (shared cfg))
      = Z.of_nat (length (pushed (seen cfg))) - Z.of_nat (length (popped (seen cfg))))
  /\ result (size 3 (shared cfg)) = 1.
Proof.
  split.
  - apply (interleaving_size 3); [lia | reflexivity].
  - reflexivity.
Defined.
